(** * Navigation of the multi-step form: manager code and its properties

    The form is a tree Cards > Sets > Groups > Fields > Inputs.  One item
    store per level keeps the items in document order together with their
    [active] / [current] flags.  [NavigationManager] moves the position,
    [ButtonManager] answers whether the Enter key means next or submit.

    The managers are embedded as state-passing functions over one record
    [Form] that gathers the five item stores, the button store, the
    configuration and a trace of the observable effects (events emitted,
    rebuilds, state commits).  A call that throws keeps the mutations made
    before the throw, as in the source.

    [NavigationManager], [ButtonManager.determineNextOrSubmit] and
    [SubmitManager.handleSubmit] are translated from their sources.  The
    item store behind the level managers is not among the sources; its
    operations follow the contract of the level registry in the
    specification, and each of them says so. *)

From stdpp Require Import base option list strings.
From Stdlib Require Import ZArith Lia.

Local Open Scope string_scope.
Local Open Scope list_scope.
Local Open Scope Z_scope.
Local Open Scope nat_scope.

(** ** Data model *)

(** The element kinds, [element.type] in the source. *)
Inductive ElementType := ECard | ESet | EGroup | EField | EInput.

(** ['prev' | 'next' | 'submit']: the direction of a navigation request and
    the type of a button. *)
Inductive Direction := prev | next | submit.

Definition ButtonType := Direction.

(** [NavigationDeniedEvent.reason]. *)
Inductive DeniedReason := invalid | disabled | hidden | required.

#[global] Instance ElementType_eq_dec : EqDecision ElementType.
Proof. solve_decision. Defined.

#[global] Instance Direction_eq_dec : EqDecision Direction.
Proof. solve_decision. Defined.

(** Indices into the ancestor levels; [None] is the source's [null]. *)
Record ParentHierarchy := mkHierarchy {
  cardIndex : option Z;
  setIndex : option Z;
  groupIndex : option Z;
  fieldIndex : option Z
}.

(** One item of a level store.  [isIncluded] and [isValid] are read on
    inputs only. *)
Record Item := mkItem {
  itemId : string;
  index : nat;
  type : ElementType;
  active : bool;
  current : bool;
  parentHierarchy : ParentHierarchy;
  isIncluded : bool;
  isValid : bool
}.

(** The fields of a [ButtonItem] that the managers read. *)
Record ButtonItem := mkButton {
  button_id : string;
  button_index : nat;
  button_type : ButtonType;
  button_active : bool;
  button_visible : bool;
  button_disabled : bool
}.

Definition withActive (b : bool) (it : Item) : Item :=
  mkItem (itemId it) (index it) (type it) b (current it)
         (parentHierarchy it) (isIncluded it) (isValid it).

Definition withCurrent (b : bool) (it : Item) : Item :=
  mkItem (itemId it) (index it) (type it) (active it) b
         (parentHierarchy it) (isIncluded it) (isValid it).

Definition withValid (b : bool) (it : Item) : Item :=
  mkItem (itemId it) (index it) (type it) (active it) (current it)
         (parentHierarchy it) (isIncluded it) b.

(** ** The item store of one level *)

(** A selector is an id (a string) or an ordinal index (a number), the
    [idOrIndex] argument of [setActive] and [setCurrent]. *)
Inductive Selector := ById (i : string) | ByIndex (i : Z).

(** Modelled from the spec: the item store's [getByIndex] is missing from
    the sources; it returns the item at ordinal position [i], or undefined
    when out of range. *)
Definition getByIndex (i : nat) (items : list Item) : option Item :=
  items !! i.

(** Modelled from the spec: the missing [getByFilter] / [store.filter]
    keeps the items that satisfy the predicate, in document order. *)
Definition getByFilter (p : Item → bool) (items : list Item) : list Item :=
  List.filter p items.

(** Modelled from the spec: the missing [getActive] returns the active
    run in document order. *)
Definition getActive (items : list Item) : list Item :=
  getByFilter active items.

(** Ordinal position of the current item of a level, if any. *)
Definition currentPosition (items : list Item) : option nat :=
  fst <$> list_find (λ it, current it = true) items.

(** Modelled from the spec: the missing [getNextPosition] is the ordinal
    index of the item after the current one, undefined at the boundary;
    it never wraps. *)
Definition getNextPosition (items : list Item) : option nat :=
  match currentPosition items with
  | Some c => if decide (S c < length items) then Some (S c) else None
  | None => None
  end.

(** Modelled from the spec: the missing [getPrevPosition] is the ordinal
    index of the item before the current one, undefined at the boundary. *)
Definition getPrevPosition (items : list Item) : option nat :=
  match currentPosition items with
  | Some (S c) => Some c
  | _ => None
  end.

Definition clearItem (it : Item) : Item :=
  withCurrent false (withActive false it).

(** Modelled from the spec: the missing [clearActiveAndCurrent] sets every
    item's [active] and [current] to false. *)
Definition clearActiveAndCurrent (items : list Item) : list Item :=
  clearItem <$> items.

(** Position that a selector designates; [None] when no item has the id
    or the index is outside the store. *)
Definition locate (sel : Selector) (items : list Item) : option nat :=
  match sel with
  | ById i => fst <$> list_find (λ it, itemId it = i) items
  | ByIndex z =>
      if decide (0 ≤ z)%Z
      then (if decide (Z.to_nat z < length items) then Some (Z.to_nat z)
            else None)
      else None
  end.

(** Modelled from the spec: the missing [setActive] sets the flag on
    exactly one item and leaves the others alone; a selector that
    designates no item is a failure ([None]), not clamped. *)
Definition setActive (sel : Selector) (items : list Item)
  : option (list Item) :=
  (λ p, alter (withActive true) p items) <$> locate sel items.

(** Modelled from the spec: the missing [setCurrent], as [setActive] for
    the [current] flag. *)
Definition setCurrent (sel : Selector) (items : list Item)
  : option (list Item) :=
  (λ p, alter (withCurrent true) p items) <$> locate sel items.

Definition parentIndex (parentType : ElementType) (h : ParentHierarchy)
  : option Z :=
  match parentType with
  | ECard => cardIndex h
  | ESet => setIndex h
  | EGroup => groupIndex h
  | EField => fieldIndex h
  | EInput => None
  end.

(** A child's hierarchy resolves to [parentId] when its stored index for
    the parent's level designates, in the parent store, the item with
    that id. *)
Definition resolvesTo (parents : list Item) (parentType : ElementType)
    (parentId : string) (child : Item) : bool :=
  match parentIndex parentType (parentHierarchy child) with
  | Some z =>
      if decide (0 ≤ z)%Z
      then match parents !! Z.to_nat z with
           | Some p => bool_decide (itemId p = parentId)
           | None => false
           end
      else false
  | None => false
  end.

Fixpoint markChildren (isChild : Item → bool) (firstIsCurrent : bool)
    (items : list Item) : list Item :=
  match items with
  | [] => []
  | it :: rest =>
      if isChild it
      then (if firstIsCurrent then withCurrent true (withActive true it)
            else withActive true it)
           :: markChildren isChild false rest
      else it :: markChildren isChild firstIsCurrent rest
  end.

(** Modelled from the spec: the missing [setActiveByParent] marks every
    child whose hierarchy resolves to [parentId] as active; with
    [firstIsCurrent] the first such child in index order is also marked
    current. *)
Definition setActiveByParent (parents : list Item) (parentId : string)
    (parentType : ElementType) (firstIsCurrent : bool) (items : list Item)
  : list Item :=
  markChildren (resolvesTo parents parentType parentId) firstIsCurrent items.

(** ** Form state, effects and errors *)

Inductive Event :=
  | NavigationRequest (t : Direction)   (* form:navigation:request *)
  | NavigationDenied (r : DeniedReason) (* form:navigation:denied *)
  | SubmitRequested                     (* form:submit:requested *)
  | SubmitStarted.                      (* form:submit:started *)

(** Modelled from the spec: [calculateStates] of a level store is missing
    from the sources; it returns a patch object computed from the store.
    The patch is kept symbolic: the level and the items it is computed
    from. *)
Inductive Patch := CalculatedStates (t : ElementType) (items : list Item).

Inductive Effect :=
  | Emitted (e : Event)
  | DefaultPrevented
  | Rebuilt (t : ElementType)
  | StatesSet (allStates : list Patch).

Inductive Cause :=
  | CauseBehavior (behavior : string)
  | CauseTarget (targetPosition : nat) (direction : Direction)
  | CauseSelector (t : ElementType) (sel : Selector).

(** The value built by [form.createError (message, kind, {cause})]. *)
Record FormError := mkError {
  message : string;
  kind : string;
  cause : Cause
}.

Record Form := mkForm {
  behavior : string;
  navigationEnabled : bool;
  cardManager : list Item;
  setManager : list Item;
  groupManager : list Item;
  fieldManager : list Item;
  inputManager : list Item;
  buttonStore : list ButtonItem;
  trace : list Effect
}.

(** The store of one level. *)
Definition manager (t : ElementType) (s : Form) : list Item :=
  match t with
  | ECard => cardManager s
  | ESet => setManager s
  | EGroup => groupManager s
  | EField => fieldManager s
  | EInput => inputManager s
  end.

Definition withManager (t : ElementType) (items : list Item) (s : Form)
  : Form :=
  match t with
  | ECard => mkForm (behavior s) (navigationEnabled s) items (setManager s)
               (groupManager s) (fieldManager s) (inputManager s)
               (buttonStore s) (trace s)
  | ESet => mkForm (behavior s) (navigationEnabled s) (cardManager s) items
              (groupManager s) (fieldManager s) (inputManager s)
              (buttonStore s) (trace s)
  | EGroup => mkForm (behavior s) (navigationEnabled s) (cardManager s)
                (setManager s) items (fieldManager s) (inputManager s)
                (buttonStore s) (trace s)
  | EField => mkForm (behavior s) (navigationEnabled s) (cardManager s)
                (setManager s) (groupManager s) items (inputManager s)
                (buttonStore s) (trace s)
  | EInput => mkForm (behavior s) (navigationEnabled s) (cardManager s)
                (setManager s) (groupManager s) (fieldManager s) items
                (buttonStore s) (trace s)
  end.

Definition withTrace (tr : list Effect) (s : Form) : Form :=
  mkForm (behavior s) (navigationEnabled s) (cardManager s) (setManager s)
    (groupManager s) (fieldManager s) (inputManager s) (buttonStore s) tr.

(** ** The monad of manager methods: state, and exceptions that keep the
    state reached when they are thrown *)

Inductive Outcome (A : Type) :=
  | Ok (a : A)
  | Thrown (e : FormError).
Arguments Ok {A} a.
Arguments Thrown {A} e.

Definition M (A : Type) : Type := Form → Form * Outcome A.

#[global] Instance M_ret : MRet M := λ A a s, (s, Ok a).

#[global] Instance M_bind : MBind M := λ A B k m s,
  match m s with
  | (s', Ok a) => k a s'
  | (s', Thrown e) => (s', Thrown e)
  end.

Definition throw {A} (e : FormError) : M A := λ s, (s, Thrown e).

Definition gets {A} (f : Form → A) : M A := λ s, (s, Ok (f s)).

Definition modify (f : Form → Form) : M unit := λ s, (f s, Ok tt).

Definition record (e : Effect) : M unit :=
  modify (λ s, withTrace (trace s ++ [e]) s).

(** [array.forEach ((x, index) => ...)]. *)
Fixpoint forEachFrom {A} (index : nat) (f : A → nat → M unit) (l : list A)
  : M unit :=
  match l with
  | [] => mret tt
  | x :: rest => f x index ;; forEachFrom (S index) f rest
  end.

Definition forEach {A} (l : list A) (f : A → nat → M unit) : M unit :=
  forEachFrom 0 f l.

(** ** The level managers seen from the form

    [form.cardManager], [form.setManager], [form.groupManager],
    [form.fieldManager] and [form.inputManager] are five instances of the
    same item store; [mgr_f t] is the method [f] of the manager of
    level [t]. *)

(** Modelled from the spec: the typed failure of a store operation whose
    selector designates no item; the offending selector is captured. *)
Definition notFound (t : ElementType) (sel : Selector) : FormError :=
  mkError "Item not found" "runtime" (CauseSelector t sel).

Definition mgr_clearActiveAndCurrent (t : ElementType) : M unit :=
  modify (λ s, withManager t (clearActiveAndCurrent (manager t s)) s).

Definition mgr_setActive (t : ElementType) (sel : Selector) : M unit :=
  λ s, match setActive sel (manager t s) with
       | Some items => (withManager t items s, Ok tt)
       | None => (s, Thrown (notFound t sel))
       end.

Definition mgr_setCurrent (t : ElementType) (sel : Selector) : M unit :=
  λ s, match setCurrent sel (manager t s) with
       | Some items => (withManager t items s, Ok tt)
       | None => (s, Thrown (notFound t sel))
       end.

Definition mgr_setActiveByParent (t : ElementType) (parentId : string)
    (parentType : ElementType) (firstIsCurrent : bool) : M unit :=
  modify (λ s, withManager t
                 (setActiveByParent (manager parentType s) parentId
                    parentType firstIsCurrent (manager t s)) s).

(** Modelled from the spec: [rebuildAll] is missing from the sources; it
    recomputes derived per-item fields (visibility and the like) for
    local consistency.  None of the fields of [Item] is derived, so the
    store keeps its items and the call is recorded in the trace. *)
Definition mgr_rebuildAll (t : ElementType) : M unit :=
  record (Rebuilt t).

(** [calculateStates] reads the store and writes nothing. *)
Definition mgr_calculateStates (t : ElementType) : M Patch :=
  gets (λ s, CalculatedStates t (manager t s)).

(** [form.setStates]: one commit of the merged patches. *)
Definition setStates (allStates : list Patch) : M unit :=
  record (StatesSet allStates).

(** ** ButtonManager *)

(** [ButtonManager.getActive]: the buttons that are active and visible. *)
Definition button_getActive (buttons : list ButtonItem) : list ButtonItem :=
  List.filter (λ button, button_active button && button_visible button)
    buttons.

(** [ButtonManager.determineNextOrSubmit] on the button store. *)
Definition determineNextOrSubmit (buttons : list ButtonItem) : Direction :=
  let active := button_getActive buttons in
  match List.find (λ button, bool_decide (button_type button = next)) active
  with
  | Some _ => next
  | None =>
      match List.find (λ button, bool_decide (button_type button = submit))
              active with
      | Some _ => submit
      | None => next
      end
  end.

(** ** NavigationManager *)

Definition emitDenied (r : DeniedReason) : M unit :=
  record (Emitted (NavigationDenied r)).

(** [validateCurrent]: every active and included input is valid. *)
Definition validateCurrent : M bool :=
  gets (λ s,
    let inputsToValidate :=
      getByFilter (λ input, active input && isIncluded input)
        (inputManager s) in
    forallb isValid inputsToValidate).

(** [clearHierarchyData]: clears the given level and every level below
    it, fields always. *)
Definition clearHierarchyData (elementType : ElementType) : M unit :=
  (if bool_decide (elementType = ECard)
   then mgr_clearActiveAndCurrent ECard else mret tt) ;;
  (if bool_decide (elementType = ECard) || bool_decide (elementType = ESet)
   then mgr_clearActiveAndCurrent ESet else mret tt) ;;
  (if bool_decide (elementType = ECard) || bool_decide (elementType = ESet)
      || bool_decide (elementType = EGroup)
   then mgr_clearActiveAndCurrent EGroup else mret tt) ;;
  mgr_clearActiveAndCurrent EField.

(** [setChildrenActive]: activates the descendants of [element], the
    first child current, then clears the inputs and re-activates those of
    the active fields. *)
Definition setChildrenActive (element : Item) : M unit :=
  (if bool_decide (type element = ECard)
   then mgr_setActiveByParent ESet (itemId element) (type element) true
   else mret tt) ;;
  (if bool_decide (type element = ECard) || bool_decide (type element = ESet)
   then mgr_setActiveByParent EGroup (itemId element) (type element) true
   else mret tt) ;;
  (if bool_decide (type element = ECard) || bool_decide (type element = ESet)
      || bool_decide (type element = EGroup)
   then mgr_setActiveByParent EField (itemId element) (type element) true
   else mret tt) ;;
  mgr_clearActiveAndCurrent EInput ;;
  activeFields ← gets (λ s, getActive (fieldManager s));
  forEach activeFields (λ field index,
    mgr_setActiveByParent EInput (itemId field) EField
      (bool_decide (index = 0))).

(** The guarded block of [updateHierarchyData] for one ancestor level:
    nothing when the stored index is null or negative. *)
Definition syncAncestor (t : ElementType) (storedIndex : option Z) : M unit :=
  match storedIndex with
  | Some i =>
      if decide (0 ≤ i)%Z
      then mgr_clearActiveAndCurrent t ;;
           mgr_setActive t (ByIndex i) ;;
           mgr_setCurrent t (ByIndex i)
      else mret tt
  | None => mret tt
  end.

(** [updateHierarchyData]: group for a field, set for a field or a group,
    card always. *)
Definition updateHierarchyData (element : Item) : M unit :=
  (if bool_decide (type element = EField)
   then syncAncestor EGroup (groupIndex (parentHierarchy element))
   else mret tt) ;;
  (if bool_decide (type element = EField)
      || bool_decide (type element = EGroup)
   then syncAncestor ESet (setIndex (parentHierarchy element))
   else mret tt) ;;
  syncAncestor ECard (cardIndex (parentHierarchy element)).

(** [batchStateUpdates]: five rebuilds, five patches, one commit. *)
Definition batchStateUpdates : M unit :=
  mgr_rebuildAll EInput ;;
  mgr_rebuildAll EField ;;
  mgr_rebuildAll EGroup ;;
  mgr_rebuildAll ESet ;;
  mgr_rebuildAll ECard ;;
  pInput ← mgr_calculateStates EInput;
  pField ← mgr_calculateStates EField;
  pGroup ← mgr_calculateStates EGroup;
  pSet ← mgr_calculateStates ESet;
  pCard ← mgr_calculateStates ECard;
  setStates [pInput; pField; pGroup; pSet; pCard].

(** [direction === 'prev' ? getPrevPosition () : getNextPosition ()]. *)
Definition targetPositionOf (t : ElementType) (direction : Direction)
  : M (option nat) :=
  gets (λ s, if bool_decide (direction = prev)
             then getPrevPosition (manager t s)
             else getNextPosition (manager t s)).

Definition nullTarget (msg : string) (targetPosition : nat)
    (direction : Direction) : FormError :=
  mkError msg "runtime" (CauseTarget targetPosition direction).

(** [byCard]: the result is the level resolved, [None] for undefined. *)
Definition byCard (direction : Direction) : M (option ElementType) :=
  targetPosition ← targetPositionOf ECard direction;
  match targetPosition with
  | None => mret None
  | Some targetPosition =>
      targetCard ← gets (λ s, getByIndex targetPosition (cardManager s));
      match targetCard with
      | None =>
          throw (nullTarget "Cannot handle navigation: target card is null"
                   targetPosition direction)
      | Some targetCard =>
          clearHierarchyData ECard ;;
          mgr_setActive ECard (ById (itemId targetCard)) ;;
          mgr_setCurrent ECard (ById (itemId targetCard)) ;;
          setChildrenActive targetCard ;;
          batchStateUpdates ;;
          mret (Some ECard)
      end
  end.

Definition bySet (direction : Direction) : M (option ElementType) :=
  targetPosition ← targetPositionOf ESet direction;
  match targetPosition with
  | None => byCard direction
  | Some targetPosition =>
      targetSet ← gets (λ s, getByIndex targetPosition (setManager s));
      match targetSet with
      | None =>
          throw (nullTarget "Cannot handle navigation: target set is null"
                   targetPosition direction)
      | Some targetSet =>
          clearHierarchyData ESet ;;
          mgr_setActive ESet (ById (itemId targetSet)) ;;
          mgr_setCurrent ESet (ById (itemId targetSet)) ;;
          setChildrenActive targetSet ;;
          updateHierarchyData targetSet ;;
          batchStateUpdates ;;
          mret (Some ESet)
      end
  end.

Definition byGroup (direction : Direction) : M (option ElementType) :=
  targetPosition ← targetPositionOf EGroup direction;
  match targetPosition with
  | None => bySet direction
  | Some targetPosition =>
      targetGroup ← gets (λ s, getByIndex targetPosition (groupManager s));
      match targetGroup with
      | None =>
          throw (nullTarget "Cannot handle navigation: target group is null"
                   targetPosition direction)
      | Some targetGroup =>
          clearHierarchyData EGroup ;;
          mgr_setActive EGroup (ById (itemId targetGroup)) ;;
          mgr_setCurrent EGroup (ById (itemId targetGroup)) ;;
          setChildrenActive targetGroup ;;
          updateHierarchyData targetGroup ;;
          batchStateUpdates ;;
          mret (Some EGroup)
      end
  end.

Definition byField (direction : Direction) : M (option ElementType) :=
  targetPosition ← targetPositionOf EField direction;
  match targetPosition with
  | None => byGroup direction
  | Some targetPosition =>
      targetField ← gets (λ s, getByIndex targetPosition (fieldManager s));
      match targetField with
      | None =>
          throw (nullTarget "Cannot handle navigation: target field is null"
                   targetPosition direction)
      | Some targetField =>
          clearHierarchyData EField ;;
          setChildrenActive targetField ;;
          updateHierarchyData targetField ;;
          batchStateUpdates ;;
          mret (Some EField)
      end
  end.

Definition invalidBehavior (behavior : string) : FormError :=
  mkError "Invalid behavior" "runtime" (CauseBehavior behavior).

(** The [switch (behavior)] statement of [handleMove]. *)
Definition stepModeSwitch (behavior : string) (direction : Direction)
  : M unit :=
  if bool_decide (behavior = "byField") then byField direction ;; mret tt
  else if bool_decide (behavior = "byGroup")
  then byGroup direction ;; mret tt
  else if bool_decide (behavior = "bySet") then bySet direction ;; mret tt
  else if bool_decide (behavior = "byCard") then byCard direction ;; mret tt
  else throw (invalidBehavior behavior).

(** [handleMove].  The [logDebug] lines only write to the console and are
    left out. *)
Definition handleMove (direction : Direction) : M unit :=
  enabled ← gets navigationEnabled;
  if negb enabled then mret tt else
  valid ← validateCurrent;
  let canMove :=
    (bool_decide (direction = next) && valid)
    || (bool_decide (direction = submit) && valid)
    || bool_decide (direction = prev) in
  behavior ← gets behavior;
  if negb canMove then emitDenied invalid else
  if bool_decide (direction = submit) then byCard next ;; mret tt else
  stepModeSwitch behavior direction.

(** ** The event bus as far as these managers subscribe to it *)

(** [form.emit ('form:navigation:request', {type})]: the navigation
    manager subscribes with [handleMove (payload.type)]. *)
Definition emitNavigationRequest (t : Direction) : M unit :=
  record (Emitted (NavigationRequest t)) ;;
  handleMove t.

(** [SubmitManager.handleSubmit]. *)
Definition handleSubmit : M unit :=
  record (Emitted SubmitStarted).

(** [form.emit ('form:submit:requested', {})]: the submit manager
    subscribes with [handleSubmit]. *)
Definition emitSubmitRequested : M unit :=
  record (Emitted SubmitRequested) ;;
  handleSubmit.

Record KeyboardEvent := mkKey {
  key : string;
  shiftKey : bool
}.

(** What the handler reads of [document.activeElement]. *)
Record FocusedElement := mkFocus {
  tagName : string;
  insideForm : bool;  (* formElement.contains (activeElement) *)
  isBody : bool       (* activeElement === document.body *)
}.

(** The [keydown] handler installed by [setupEnterKeyListener];
    [activeElement] is [None] when the document has no focused element. *)
Definition enterKeyHandler (event : KeyboardEvent)
    (activeElement : option FocusedElement) : M unit :=
  if negb (bool_decide (key event = "Enter")) || shiftKey event
  then mret tt else
  let isWithinForm := from_option insideForm false activeElement in
  let isDocumentBody := from_option isBody false activeElement in
  if (negb isWithinForm && negb isDocumentBody)
     || from_option (λ e, bool_decide (tagName e = "BUTTON")) false
          activeElement
  then mret tt else
  record DefaultPrevented ;;
  nextOrSubmit ← gets (λ s, determineNextOrSubmit (buttonStore s));
  if bool_decide (nextOrSubmit = next)
  then emitNavigationRequest next
  else emitSubmitRequested.

(** * Specification vocabulary *)

(** Position asked of the store of level [t] for a direction. *)
Definition targetPosition (t : ElementType) (direction : Direction)
    (s : Form) : option nat :=
  if bool_decide (direction = prev) then getPrevPosition (manager t s)
  else getNextPosition (manager t s).

(** The state after a denial: the event is appended, nothing else
    changes. *)
Definition denied (s : Form) : Form :=
  withTrace (trace s ++ [Emitted (NavigationDenied invalid)]) s.

(** Some active and included input is invalid. *)
Definition someInvalid (s : Form) : Prop :=
  ∃ input, input ∈ inputManager s ∧ active input = true
           ∧ isIncluded input = true ∧ isValid input = false.

(** Every active and included input is valid. *)
Definition allValid (s : Form) : Prop :=
  ∀ input, input ∈ inputManager s → active input = true →
           isIncluded input = true → isValid input = true.

Definition knownBehavior (b : string) : Prop :=
  b = "byField" ∨ b = "byGroup" ∨ b = "bySet" ∨ b = "byCard".

Definition withBehavior (b : string) (s : Form) : Form :=
  mkForm b (navigationEnabled s) (cardManager s) (setManager s)
    (groupManager s) (fieldManager s) (inputManager s) (buttonStore s)
    (trace s).

(** An effect that is a denial event. *)
Definition isDenial (e : Effect) : bool :=
  match e with
  | Emitted (NavigationDenied _) => true
  | _ => false
  end.

(** A button of the given type that is active and visible. *)
Definition reachable (t : ButtonType) (button : ButtonItem) : bool :=
  button_active button && button_visible button
  && bool_decide (button_type button = t).

(** Two buttons agree on the fields [determineNextOrSubmit] reads. *)
Definition sameControl (b b' : ButtonItem) : Prop :=
  button_active b = button_active b'
  ∧ button_visible b = button_visible b'
  ∧ button_type b = button_type b'.

(** A key press that the Enter handler acts on. *)
Definition actsOn (event : KeyboardEvent)
    (activeElement : option FocusedElement) : Prop :=
  key event = "Enter" ∧ shiftKey event = false
  ∧ ∃ e, activeElement = Some e
         ∧ (insideForm e = true ∨ isBody e = true)
         ∧ tagName e ≠ "BUTTON".

(** ** Closed forms of the methods that cannot throw *)

(** Applies [f] to the store of every level and keeps the rest. *)
Definition mapManagers (f : ElementType → list Item → list Item)
    (s : Form) : Form :=
  mkForm (behavior s) (navigationEnabled s)
    (f ECard (cardManager s)) (f ESet (setManager s))
    (f EGroup (groupManager s)) (f EField (fieldManager s))
    (f EInput (inputManager s)) (buttonStore s) (trace s).

(** The levels [clearHierarchyData elementType] clears. *)
Definition clears (elementType t : ElementType) : bool :=
  match elementType, t with
  | ECard, (ECard | ESet | EGroup | EField) => true
  | ESet, (ESet | EGroup | EField) => true
  | EGroup, (EGroup | EField) => true
  | _, EField => true
  | _, _ => false
  end.

(** The levels [setChildrenActive] marks by parent for an element of
    type [elementType]. *)
Definition cascades (elementType t : ElementType) : bool :=
  match elementType, t with
  | ECard, (ESet | EGroup | EField) => true
  | ESet, (EGroup | EField) => true
  | EGroup, EField => true
  | _, _ => false
  end.

(** The ancestor levels [updateHierarchyData] looks at for an element of
    type [elementType]. *)
Definition syncs (elementType t : ElementType) : bool :=
  match t, elementType with
  | EGroup, EField => true
  | ESet, (EField | EGroup) => true
  | ECard, _ => true
  | _, _ => false
  end.

(** The input store after the [forEach] of [setChildrenActive], started
    at [index]. *)
Fixpoint activateInputsFrom (index : nat) (fields activeFields : list Item)
    (inputs : list Item) : list Item :=
  match activeFields with
  | [] => inputs
  | field :: rest =>
      activateInputsFrom (S index) fields rest
        (setActiveByParent fields (itemId field) EField
           (bool_decide (index = 0)) inputs)
  end.

Definition inputsActivated (s : Form) : Form :=
  withManager EInput
    (activateInputsFrom 0 (fieldManager s) (getActive (fieldManager s))
       (clearActiveAndCurrent (inputManager s))) s.

Definition childrenActivated (element : Item) (s : Form) : Form :=
  inputsActivated
    (mapManagers
       (λ t items,
          if cascades (type element) t
          then setActiveByParent (manager (type element) s)
                 (itemId element) (type element) true items
          else items) s).

(** One ancestor store after its block of [updateHierarchyData]; [None]
    when the stored index designates no item. *)
Definition synced (storedIndex : option Z) (items : list Item)
  : option (list Item) :=
  match storedIndex with
  | Some i =>
      if decide (0 ≤ i)%Z
      then setActive (ByIndex i) (clearActiveAndCurrent items)
             ≫= setCurrent (ByIndex i)
      else Some items
  | None => Some items
  end.

Definition batchTrace (s : Form) : list Effect :=
  [Rebuilt EInput; Rebuilt EField; Rebuilt EGroup; Rebuilt ESet;
   Rebuilt ECard;
   StatesSet [CalculatedStates EInput (inputManager s);
              CalculatedStates EField (fieldManager s);
              CalculatedStates EGroup (groupManager s);
              CalculatedStates ESet (setManager s);
              CalculatedStates ECard (cardManager s)]].

(** Everything but the five stores is the same in both states. *)
Definition sameFrame (s s' : Form) : Prop :=
  behavior s' = behavior s ∧ navigationEnabled s' = navigationEnabled s
  ∧ buttonStore s' = buttonStore s ∧ trace s' = trace s.

(** [setActive] then [setCurrent] with the same selector. *)
Definition selected (sel : Selector) (items : list Item)
  : option (list Item) :=
  setActive sel items ≫= setCurrent sel.

(** The state after [batchStateUpdates]. *)
Definition batched (s : Form) : Form :=
  withTrace (trace s ++ batchTrace s) s.

(** The resolver of a level. *)
Definition resolverOf (level : ElementType)
  : Direction → M (option ElementType) :=
  match level with
  | ECard => byCard
  | ESet => bySet
  | EGroup => byGroup
  | EField => byField
  | EInput => λ _, mret None
  end.

(** The store of an ancestor level after [updateHierarchyData element];
    [None] when the stored index designates no item. *)
Definition syncedLevel (element : Item) (t : ElementType)
    (items : list Item) : option (list Item) :=
  if syncs (type element) t
  then synced (parentIndex t (parentHierarchy element)) items
  else Some items.

(** The store of level [t] once the resolver of [level] has moved to its
    target [element], in terms of the state [s] before the move; [s3] is
    the state just before the batch. *)
Definition levelAfter (level : ElementType) (element : Item) (s s3 : Form)
    (t : ElementType) : Prop :=
  match t with
  | EInput =>
      inputManager s3
      = activateInputsFrom 0 (fieldManager s3) (getActive (fieldManager s3))
          (clearActiveAndCurrent (inputManager s))
  | _ =>
      if cascades level t
      then manager t s3
           = setActiveByParent (manager level s) (itemId element) level true
               (clearActiveAndCurrent (manager t s))
      else if bool_decide (t = level)
      then (if bool_decide (level = EField)
            then Some (clearActiveAndCurrent (manager t s))
            else selected (ById (itemId element))
                   (clearActiveAndCurrent (manager t s)))
           = Some (manager t s3)
      else syncedLevel element t (manager t s) = Some (manager t s3)
  end.

(** ** Exclusivity and well-formedness *)

Definition currentCount (items : list Item) : nat :=
  length (List.filter current items).

(** Every current item is active. *)
Definition coherent (items : list Item) : Prop :=
  forallb (λ it, implb (current it) (active it)) items = true.

(** At most one item is current, and a current item is active. *)
Definition exclusive (items : list Item) : Prop :=
  currentCount items ≤ 1 ∧ coherent items.

Definition Exclusivity (s : Form) : Prop :=
  ∀ t, exclusive (manager t s).

(** The store of a level holds items of that level ([CardItem.type] is
    ['card'], and so on). *)
Definition wellTyped (s : Form) : Prop :=
  ∀ t, forallb (λ it, bool_decide (type it = t)) (manager t s) = true.


(** No item of the store is active or current. *)
Definition allClear (items : list Item) : Prop :=
  ∀ it, it ∈ items → active it = false ∧ current it = false.

(** The item at position [p] is active and current, no other item is
    either. *)
Definition onlyAt (p : nat) (items : list Item) : Prop :=
  p < length items
  ∧ ∀ i it, items !! i = Some it →
            active it = bool_decide (i = p)
            ∧ current it = bool_decide (i = p).

(** The level a resolver falls back to at a boundary. *)
Definition coarser (level : ElementType) : option ElementType :=
  match level with
  | EField => Some EGroup
  | EGroup => Some ESet
  | ESet => Some ECard
  | _ => None
  end.

(** [a] is a level above [level] in the hierarchy of a navigable item. *)
Definition isAncestor (a level : ElementType) : bool :=
  match level, a with
  | EField, (EGroup | ESet | ECard) => true
  | EGroup, (ESet | ECard) => true
  | ESet, ECard => true
  | _, _ => false
  end.

(** The resolver of [level] found the target [element] at position [p]
    and moved from [s] to [s']. *)
Definition movedTo (level : ElementType) (d : Direction) (p : nat)
    (element : Item) (s s' : Form) : Prop :=
  level ≠ EInput ∧ type element = level
  ∧ targetPosition level d s = Some p
  ∧ manager level s !! p = Some element
  ∧ ∃ s3, s' = batched s3 ∧ sameFrame s s3
          ∧ ∀ t, levelAfter level element s s3 t.

(** An effect list without a denial event. *)
Definition quiet (extra : list Effect) : Prop :=
  forallb (λ e, negb (isDenial e)) extra = true.

(** A method all of whose runs, completed or thrown, relate the state
    before to the state after by [R] and throw only errors in
    [okError]. *)
Definition within (R : Form → Form → Prop) (okError : FormError → Prop)
    {A} (m : M A) : Prop :=
  ∀ s s' r, m s = (s', r) → R s s' ∧ ∀ e, r = Thrown e → okError e.

(** The trace grew, and by no denial event. *)
Definition grewQuietly (s s' : Form) : Prop :=
  ∃ extra, trace s' = trace s ++ extra ∧ quiet extra.

Definition notBehaviorError (e : FormError) : Prop :=
  ∀ b, cause e ≠ CauseBehavior b.

(** A method that only appends non-denial effects to the trace and never
    throws the invalid-behavior error. *)
Definition discreet {A} (m : M A) : Prop :=
  within grewQuietly notBehaviorError m.

(** The configuration is the same in both states. *)
Definition sameConfig (s s' : Form) : Prop :=
  navigationEnabled s' = navigationEnabled s ∧ behavior s' = behavior s.

(** ** Example forms *)

Definition hierarchy (c s g f : option Z) : ParentHierarchy :=
  mkHierarchy c s g f.

Definition item (i : string) (n : nat) (t : ElementType) (a c : bool)
    (h : ParentHierarchy) : Item :=
  mkItem i n t a c h true true.

(** Two cards; the first holds one field, the second two; the position is
    on the first card. *)
Definition demoForm : Form :=
  mkForm "byCard" true
    [item "card-0" 0 ECard true true (hierarchy None None None None);
     item "card-1" 1 ECard false false (hierarchy None None None None)]
    [item "set-0" 0 ESet true true (hierarchy (Some 0%Z) None None None);
     item "set-1" 1 ESet false false (hierarchy (Some 1%Z) None None None)]
    [item "group-0" 0 EGroup true true
       (hierarchy (Some 0%Z) (Some 0%Z) None None);
     item "group-1" 1 EGroup false false
       (hierarchy (Some 1%Z) (Some 1%Z) None None)]
    [item "field-0" 0 EField true true
       (hierarchy (Some 0%Z) (Some 0%Z) (Some 0%Z) None);
     item "field-1" 1 EField false false
       (hierarchy (Some 1%Z) (Some 1%Z) (Some 1%Z) None);
     item "field-2" 2 EField false false
       (hierarchy (Some 1%Z) (Some 1%Z) (Some 1%Z) None)]
    [item "input-0" 0 EInput true true
       (hierarchy (Some 0%Z) (Some 0%Z) (Some 0%Z) (Some 0%Z));
     item "input-1" 1 EInput false false
       (hierarchy (Some 1%Z) (Some 1%Z) (Some 1%Z) (Some 1%Z));
     item "input-2" 2 EInput false false
       (hierarchy (Some 1%Z) (Some 1%Z) (Some 1%Z) (Some 2%Z))]
    [mkButton "next-button-0" 0 next true true false;
     mkButton "submit-button-1" 1 submit false true true]
    [].

(** The same form with the input of the first card invalid. *)
Definition demoInvalid : Form :=
  withManager EInput (alter (withValid false) 0 (inputManager demoForm))
    demoForm.

(** The same form in field mode at its very end: the position is on the
    last item of every level. *)
Definition demoAtEnd : Form :=
  mkForm "byField" true
    [item "card-0" 0 ECard false false (hierarchy None None None None);
     item "card-1" 1 ECard true true (hierarchy None None None None)]
    [item "set-0" 0 ESet false false (hierarchy (Some 0%Z) None None None);
     item "set-1" 1 ESet true true (hierarchy (Some 1%Z) None None None)]
    [item "group-0" 0 EGroup false false
       (hierarchy (Some 0%Z) (Some 0%Z) None None);
     item "group-1" 1 EGroup true true
       (hierarchy (Some 1%Z) (Some 1%Z) None None)]
    [item "field-0" 0 EField false false
       (hierarchy (Some 0%Z) (Some 0%Z) (Some 0%Z) None);
     item "field-1" 1 EField true false
       (hierarchy (Some 1%Z) (Some 1%Z) (Some 1%Z) None);
     item "field-2" 2 EField true true
       (hierarchy (Some 1%Z) (Some 1%Z) (Some 1%Z) None)]
    (inputManager demoForm)
    (buttonStore demoForm)
    [].

(** One card, one set, one group holding the first field; the second
    field sits in the set directly, outside any group. *)
Definition looseFieldForm : Form :=
  mkForm "byField" true
    [item "card-0" 0 ECard true true (hierarchy None None None None)]
    [item "set-0" 0 ESet true true (hierarchy (Some 0%Z) None None None)]
    [item "group-0" 0 EGroup true true
       (hierarchy (Some 0%Z) (Some 0%Z) None None)]
    [item "field-0" 0 EField true true
       (hierarchy (Some 0%Z) (Some 0%Z) (Some 0%Z) None);
     item "field-1" 1 EField false false
       (hierarchy (Some 0%Z) (Some 0%Z) None None)]
    [item "input-0" 0 EInput true true
       (hierarchy (Some 0%Z) (Some 0%Z) (Some 0%Z) (Some 0%Z));
     item "input-1" 1 EInput false false
       (hierarchy (Some 0%Z) (Some 0%Z) None (Some 1%Z))]
    []
    [].

Definition enterKey : KeyboardEvent := mkKey "Enter" false.

Definition focusedInput : option FocusedElement :=
  Some (mkFocus "INPUT" true false).

(** No item before position [i] satisfies [c]. *)
Definition noneBefore (c : Item → bool) (items : list Item) (i : nat)
  : bool :=
  forallb (λ it, negb (c it)) (take i items).

(** The field an input hangs under, by its stored field index. *)
Definition parentField (fields : list Item) (input : Item) : option Item :=
  match fieldIndex (parentHierarchy input) with
  | Some z => if decide (0 ≤ z)%Z then fields !! Z.to_nat z else None
  | None => None
  end.

(** The item of level [t] descends from the item [parentId] of level
    [level], read off its stored hierarchy. *)
Definition childOf (s : Form) (level : ElementType) (parentId : string)
    (it : Item) : bool :=
  resolvesTo (manager level s) level parentId it.

(** * The rest of the managers *)

(** [SubmitManager.showSuccess]: requests the navigation of type submit. *)
Definition showSuccess : M unit :=
  emitNavigationRequest submit.

(** How far down from the top a level sits: the lower the number, the
    less [clearHierarchyData] clears. *)
Definition reach (t : ElementType) : nat :=
  match t with
  | ECard => 3
  | ESet => 2
  | EGroup => 1
  | EField | EInput => 0
  end.

(** Of two levels, the one whose [clearHierarchyData] clears more. *)
Definition wider (a b : ElementType) : ElementType :=
  if decide (reach a < reach b) then b else a.

(** The trace of [s'] extends the trace of [s]. *)
Definition traceGrows (s s' : Form) : Prop :=
  ∃ extra, trace s' = trace s ++ extra.

(** The two states differ at most in the trace and in the [active] and
    [current] flags of the items: the configuration and the buttons are
    the same, and each store holds the same items in the same order once
    the flags are erased. *)
Definition sameStructure (s s' : Form) : Prop :=
  sameConfig s s' ∧ buttonStore s' = buttonStore s
  ∧ ∀ t, clearActiveAndCurrent (manager t s')
         = clearActiveAndCurrent (manager t s).

(** Every ancestor index stored in an item that is present and not
    negative designates an item of the ancestor store. *)
Definition inRange (s : Form) : Prop :=
  ∀ t a,
    forallb
      (λ e, match parentIndex a (parentHierarchy e) with
            | Some z =>
                if decide (0 ≤ z)%Z
                then bool_decide (Z.to_nat z < length (manager a s))
                else true
            | None => true
            end) (manager t s) = true.

(** A run of [m] from a state in [P] completes, with a result and a
    state in [Q]. *)
Definition completes {A} (P : Form → Prop) (m : M A)
    (Q : A → Form → Prop) : Prop :=
  ∀ s, P s → ∃ s' a, m s = (s', Ok a) ∧ Q a s'.

(** A form whose only reachable button is a submit button, with an
    invalid input and navigation switched off. *)
Definition submitOnlyForm : Form :=
  mkForm "byCard" false (cardManager demoForm) (setManager demoForm)
    (groupManager demoForm) (fieldManager demoForm)
    (inputManager demoInvalid)
    [mkButton "next-button-0" 0 next false true true;
     mkButton "submit-button-1" 1 submit true true true]
    [].

(** The trace after a run of a method that commits at most once, as its
    last step: a thrown run has written nothing to the trace; a
    completed run has written nothing or the five rebuilds and the one
    commit of [batchStateUpdates], whose patches are those of the stores
    it ends with. *)
Definition commitsLast {A} (m : M A) : Prop :=
  ∀ s s' r, m s = (s', r) →
    match r with
    | Thrown _ => trace s' = trace s
    | Ok _ => trace s' = trace s ∨ trace s' = trace s ++ batchTrace s'
    end.

(** The trace is the same in both states. *)
Definition sameTrace (s s' : Form) : Prop := trace s' = trace s.

(** ** ButtonManager: the states of the buttons *)

(** [ButtonManager.getSubmit]: the first active submit button. *)
Definition getSubmit (buttons : list ButtonItem) : option ButtonItem :=
  List.find (λ item, button_active item
                     && bool_decide (button_type item = submit)) buttons.

(** [determineEnabled (type, activeAndVisible)]. *)
Definition determineEnabled (type : ButtonType) (activeAndVisible : bool)
    (s : Form) : bool :=
  if negb activeAndVisible then false else
  let valid :=
    forallb isValid
      (getByFilter (λ input, active input && isIncluded input)
         (inputManager s)) in
  match type with
  | prev => activeAndVisible
  | next => valid
  | submit => valid
  end.

Section ButtonStates.

(** [HierarchyBuilder.findParentByElement (element, type, getAll)] is not
    among the sources and is taken as a parameter.  The element of a
    button is named by the discovery index of the button; the answer is
    the item of the given level that the element sits in, if any, as the
    store holds it now. *)
Variable findParentByElement : nat → ElementType → list Item → option Item.

(** [findParentItem]: the parent set, else the parent card. *)
Definition findParentItem (element : nat) (s : Form) : option Item :=
  let parentSet := findParentByElement element ESet (setManager s) in
  let parentCard := findParentByElement element ECard (cardManager s) in
  match parentSet with
  | Some parent => Some parent
  | None => parentCard
  end.

(** [determineActive]: the parent's flag, true without a parent. *)
Definition determineActive (element : nat) (s : Form) : bool :=
  match findParentItem element s with
  | Some parent => active parent
  | None => true
  end.

(** [buildItemData]: [visible] is the constant true of the source. *)
Definition buildItemData (item : ButtonItem) (s : Form) : ButtonItem :=
  let active := determineActive (button_index item) s in
  let visible := true in
  let enabled := determineEnabled (button_type item) (active && visible) s in
  mkButton (button_id item) (button_index item) (button_type item)
    active visible (negb enabled).

(** The items that [calculateStates] builds, one for each item of the
    store, in the order of [getAll]. *)
Definition rebuilt (buttons : list ButtonItem) (s : Form) : list ButtonItem :=
  (λ item, buildItemData item s) <$> buttons.

End ButtonStates.

(** The parent lookup of the example forms: a button sits in the card of
    its own index. *)
Definition demoParent (element : nat) (t : ElementType)
    (items : list Item) : option Item :=
  match t with
  | ECard => items !! element
  | _ => None
  end.

(** ** ButtonManager: visibility by position *)






(** ** ButtonManager: lazy binding of the click handlers *)

(** An entry of [activeListeners]; its event is always click.  The
    handler is a closure made when the button is bound; closures are told
    apart by the number they were made with, and buttons by the number of
    their node. *)
Record Listener := mkListener {
  listener_button : nat;
  listener_index : nat;
  listener_type : ButtonType;
  listener_handler : nat
}.

#[global] Instance Listener_eq_dec : EqDecision Listener.
Proof. solve_decision. Defined.

(** The click listeners registered on the page, as pairs of a button and
    a handler; the [activeListeners] of the manager; and the number of
    closures made so far. *)
Record Bindings := mkBindings {
  registered : list (nat * nat);
  activeListeners : list Listener;
  closures : nat
}.

(** [button.addEventListener ('click', handler)] with a handler that is
    not registered on the button yet. *)
Definition addEventListener (button handler : nat)
    (page : list (nat * nat)) : list (nat * nat) :=
  page ++ [(button, handler)].

(** [button.removeEventListener ('click', handler)]. *)
Definition removeEventListener (button handler : nat)
    (page : list (nat * nat)) : list (nat * nat) :=
  List.filter (λ r, negb (bool_decide (r = (button, handler)))) page.

(** The pair under which a listener is registered on the page. *)
Definition registration (listener : Listener) : nat * nat :=
  (listener_button listener, listener_handler listener).

(** [!activeItems.find ((item) => item.index === listener.index)]. *)
Definition shouldRemove (activeItems : list ButtonItem)
    (listener : Listener) : bool :=
  negb match List.find (λ item, bool_decide (button_index item
                                             = listener_index listener))
               activeItems with
       | Some _ => true
       | None => false
       end.

Section Binding.

(** [item.button], the node that the click is bound to, is fixed when the
    item is discovered and kept by every rebuild; it is given here by the
    discovery index of the item. *)
Variable buttonOf : nat → nat.

(** The body of the loop of [bindActiveButtons] for one item. *)
Definition bindButton (b : Bindings) (item : ButtonItem) : Bindings :=
  let button := buttonOf (button_index item) in
  let alreadyBound :=
    existsb (λ listener, bool_decide (listener_button listener = button))
      (activeListeners b) in
  if alreadyBound then b else
  let handler := closures b in
  mkBindings (addEventListener button handler (registered b))
    (activeListeners b
     ++ [mkListener button (button_index item) (button_type item) handler])
    (S (closures b)).

(** [ButtonManager.bindActiveButtons]. *)
Definition bindActiveButtons (buttons : list ButtonItem) (b : Bindings)
  : Bindings :=
  let activeItems := button_getActive buttons in
  if bool_decide (length activeItems = 0) then b else
  fold_left bindButton activeItems b.

(** [ButtonManager.unbindInactiveButtons]: the filter removes from the
    page, in the order of the list, every listener it drops. *)
Definition unbindInactiveButtons (buttons : list ButtonItem) (b : Bindings)
  : Bindings :=
  let activeItems := button_getActive buttons in
  if bool_decide (length activeItems = 0) then b else
  mkBindings
    (fold_left
       (λ page listener,
          if shouldRemove activeItems listener
          then removeEventListener (listener_button listener)
                 (listener_handler listener) page
          else page)
       (activeListeners b) (registered b))
    (List.filter (λ listener, negb (shouldRemove activeItems listener))
       (activeListeners b))
    (closures b).

(** [ButtonManager.unbindAllButtons]. *)
Definition unbindAllButtons (b : Bindings) : Bindings :=
  mkBindings
    (fold_left
       (λ page listener,
          removeEventListener (listener_button listener)
            (listener_handler listener) page)
       (activeListeners b) (registered b))
    []
    (closures b).

(** [ButtonManager.handleActiveButtons]. *)
Definition handleActiveButtons (buttons : list ButtonItem) (b : Bindings)
  : Bindings :=
  bindActiveButtons buttons (unbindInactiveButtons buttons b).

End Binding.

(** The page holds exactly the listeners that [activeListeners] records,
    in the same order, and every handler is a closure made once. *)
Definition tracked (b : Bindings) : Prop :=
  registered b = registration <$> activeListeners b
  ∧ NoDup (listener_handler <$> activeListeners b)
  ∧ ∀ listener, listener ∈ activeListeners b →
      listener_handler listener < closures b.

(** No button has two listeners. *)
Definition boundOnce (b : Bindings) : Prop :=
  NoDup (listener_button <$> activeListeners b).

(** The manager before any binding. *)
Definition unbound : Bindings := mkBindings [] [] 0.

(** In the example forms the button of an item is the node of its own
    index. *)
Definition demoButtonOf (index : nat) : nat := index.

(** * Properties *)

(** ** Running the monad *)

Lemma bind_run {A B} (m : M A) (k : A → M B) (s : Form) :
  (m ≫= k) s = match m s with
               | (s', Ok a) => k a s'
               | (s', Thrown e) => (s', Thrown e)
               end.
Proof. reflexivity. Qed.

Lemma bind_Ok_inv {A B} (m : M A) (k : A → M B) s s' b :
  (m ≫= k) s = (s', Ok b) →
  ∃ s1 a, m s = (s1, Ok a) ∧ k a s1 = (s', Ok b).
Proof.
  rewrite bind_run. destruct (m s) as [s1 [a|e]]; [eauto | discriminate].
Qed.

(** ** Validation *)

Lemma validateCurrent_run s :
  validateCurrent s
  = (s, Ok (forallb isValid
              (getByFilter (λ input, active input && isIncluded input)
                 (inputManager s)))).
Proof. reflexivity. Qed.

Lemma forallb_filter_false (items : list Item) :
  (∃ input, input ∈ items ∧ active input = true
            ∧ isIncluded input = true ∧ isValid input = false) →
  forallb isValid
    (getByFilter (λ input, active input && isIncluded input) items) = false.
Proof.
  intros (x & Hin & Ha & Hi & Hv).
  apply not_true_is_false. intros Hall.
  rewrite forallb_forall in Hall.
  specialize (Hall x). rewrite Hall in Hv; [discriminate|].
  apply filter_In. split; [by apply list_elem_of_In|].
  by rewrite Ha, Hi.
Qed.

Lemma forallb_filter_true (items : list Item) :
  (∀ input, input ∈ items → active input = true →
            isIncluded input = true → isValid input = true) →
  forallb isValid
    (getByFilter (λ input, active input && isIncluded input) items) = true.
Proof.
  intros Hall. apply forallb_forall. intros x Hx.
  apply filter_In in Hx as [Hin Hf].
  apply andb_true_iff in Hf as [Ha Hi].
  apply Hall; [by apply list_elem_of_In | done | done].
Qed.

Lemma handleMove_denied d s :
  navigationEnabled s = true → d ≠ prev → someInvalid s →
  handleMove d s = (denied s, Ok tt).
Proof.
  intros Hen Hd Hinv. unfold handleMove.
  rewrite bind_run. cbn [gets]. rewrite Hen. cbn [negb].
  rewrite bind_run, validateCurrent_run.
  rewrite (forallb_filter_false _ Hinv).
  rewrite bind_run. cbn [gets].
  destruct d; [done | reflexivity | reflexivity].
Qed.

Lemma handleMove_prev s :
  navigationEnabled s = true →
  handleMove prev s = stepModeSwitch (behavior s) prev s.
Proof.
  intros Hen. unfold handleMove.
  rewrite bind_run. cbn [gets]. rewrite Hen. cbn [negb].
  rewrite bind_run, validateCurrent_run, bind_run. cbn [gets].
  rewrite orb_true_r. reflexivity.
Qed.

Lemma handleMove_disabled d s :
  navigationEnabled s = false → handleMove d s = (s, Ok tt).
Proof.
  intros Hen. unfold handleMove. rewrite bind_run. cbn [gets].
  rewrite Hen. reflexivity.
Qed.

Lemma handleMove_allowed d s :
  navigationEnabled s = true → d ≠ prev → allValid s →
  handleMove d s
  = (if bool_decide (d = submit) then byCard next ;; mret tt
     else stepModeSwitch (behavior s) d) s.
Proof.
  intros Hen Hd Hval. unfold handleMove.
  rewrite bind_run. cbn [gets]. rewrite Hen. cbn [negb].
  rewrite bind_run, validateCurrent_run.
  rewrite (forallb_filter_true _ Hval).
  rewrite bind_run. cbn [gets].
  destruct d; [done | reflexivity | reflexivity].
Qed.

(** ** Closed forms *)

Lemma withManager_id t s : withManager t (manager t s) s = s.
Proof. by destruct t, s. Qed.

Lemma manager_withManager t items s :
  manager t (withManager t items s) = items.
Proof. by destruct t. Qed.

Lemma manager_withManager_ne t t' items s :
  t ≠ t' → manager t (withManager t' items s) = manager t s.
Proof. by destruct t, t'. Qed.

Lemma manager_mapManagers f t s :
  manager t (mapManagers f s) = f t (manager t s).
Proof. by destruct t. Qed.

Lemma manager_withTrace t tr s : manager t (withTrace tr s) = manager t s.
Proof. by destruct t. Qed.

Lemma clearHierarchyData_run elementType s :
  clearHierarchyData elementType s
  = (mapManagers (λ t items, if clears elementType t
                             then clearActiveAndCurrent items else items) s,
     Ok tt).
Proof. by destruct elementType, s. Qed.

Lemma batchStateUpdates_run s :
  batchStateUpdates s = (withTrace (trace s ++ batchTrace s) s, Ok tt).
Proof.
  destruct s. unfold batchStateUpdates, batchTrace, withTrace.
  cbv [mbind M_bind mgr_rebuildAll mgr_calculateStates setStates record
       modify gets withTrace manager trace behavior navigationEnabled
       cardManager setManager groupManager fieldManager inputManager
       buttonStore].
  by rewrite <- !app_assoc.
Qed.

Lemma forEachFrom_inputs index activeFields s :
  forEachFrom index
    (λ field index,
       mgr_setActiveByParent EInput (itemId field) EField
         (bool_decide (index = 0))) activeFields s
  = (withManager EInput
       (activateInputsFrom index (fieldManager s) activeFields
          (inputManager s)) s, Ok tt).
Proof.
  revert index s. induction activeFields as [|f rest IH]; intros index s.
  - by destruct s.
  - cbn [forEachFrom activateInputsFrom]. rewrite bind_run.
    unfold mgr_setActiveByParent at 1. cbn [modify].
    rewrite IH. by destruct s.
Qed.

Lemma modify_run f s : modify f s = (f s, Ok tt).
Proof. reflexivity. Qed.

Lemma gets_run {A} (f : Form → A) s : gets f s = (s, Ok (f s)).
Proof. reflexivity. Qed.

Lemma mret_run {A} (a : A) (s : Form) : (mret a : M A) s = (s, Ok a).
Proof. reflexivity. Qed.

Lemma throw_run {A} e s : @throw A e s = (s, Thrown e).
Proof. reflexivity. Qed.

Lemma mgr_clearActiveAndCurrent_run t s :
  mgr_clearActiveAndCurrent t s
  = (withManager t (clearActiveAndCurrent (manager t s)) s, Ok tt).
Proof. reflexivity. Qed.

Lemma mgr_setActiveByParent_run t parentId parentType firstIsCurrent s :
  mgr_setActiveByParent t parentId parentType firstIsCurrent s
  = (withManager t
       (setActiveByParent (manager parentType s) parentId parentType
          firstIsCurrent (manager t s)) s, Ok tt).
Proof. reflexivity. Qed.

Lemma targetPositionOf_run t d s :
  targetPositionOf t d s = (s, Ok (targetPosition t d s)).
Proof. reflexivity. Qed.

(** Decides the equalities between constructors and strings that the
    goal tests. *)
Ltac eval_decide :=
  repeat match goal with
  | |- context [bool_decide (?a = ?b)] =>
      let v := eval vm_compute in (bool_decide (a = b)) in
      match v with true => idtac | false => idtac end;
      change (bool_decide (a = b)) with v
  end.

(** Runs the calls that cannot throw. *)
Ltac mrun :=
  repeat (rewrite ?bind_run, ?modify_run, ?gets_run, ?mret_run, ?throw_run,
            ?mgr_clearActiveAndCurrent_run, ?mgr_setActiveByParent_run,
            ?targetPositionOf_run;
          eval_decide;
          cbn [orb andb negb manager withManager withTrace behavior
               navigationEnabled cardManager setManager groupManager
               fieldManager inputManager buttonStore trace]).

Lemma setChildrenActive_run element s :
  setChildrenActive element s = (childrenActivated element s, Ok tt).
Proof.
  unfold setChildrenActive, childrenActivated, inputsActivated, forEach.
  destruct s, (type element) eqn:Ht; mrun;
  rewrite forEachFrom_inputs; reflexivity.
Qed.

Lemma mgr_setActive_Ok t sel s s' :
  mgr_setActive t sel s = (s', Ok tt) →
  ∃ items, setActive sel (manager t s) = Some items
           ∧ s' = withManager t items s.
Proof.
  unfold mgr_setActive. destruct (setActive sel (manager t s)); [|done].
  intros [= <-]. eauto.
Qed.

Lemma mgr_setCurrent_Ok t sel s s' :
  mgr_setCurrent t sel s = (s', Ok tt) →
  ∃ items, setCurrent sel (manager t s) = Some items
           ∧ s' = withManager t items s.
Proof.
  unfold mgr_setCurrent. destruct (setCurrent sel (manager t s)); [|done].
  intros [= <-]. eauto.
Qed.

Lemma withManager_twice t a b s :
  withManager t a (withManager t b s) = withManager t a s.
Proof. by destruct t. Qed.

Lemma select_Ok t sel s s' :
  (mgr_setActive t sel ;; mgr_setCurrent t sel) s = (s', Ok tt) →
  ∃ items, selected sel (manager t s) = Some items
           ∧ s' = withManager t items s.
Proof.
  intros H. apply bind_Ok_inv in H as (s1 & [] & H1 & H2).
  apply mgr_setActive_Ok in H1 as (l1 & E1 & ->).
  apply mgr_setCurrent_Ok in H2 as (l2 & E2 & ->).
  rewrite manager_withManager in E2.
  exists l2. split; [|apply withManager_twice].
  unfold selected. by rewrite E1.
Qed.

Lemma syncAncestor_Ok t storedIndex s s' :
  syncAncestor t storedIndex s = (s', Ok tt) →
  ∃ items, synced storedIndex (manager t s) = Some items
           ∧ s' = withManager t items s.
Proof.
  unfold syncAncestor, synced.
  destruct storedIndex as [i|].
  - destruct (decide (0 ≤ i)%Z) as [Hi|Hi].
    + rewrite bind_run, mgr_clearActiveAndCurrent_run. intros H.
      apply select_Ok in H as (items & E & ->).
      rewrite manager_withManager in E.
      exists items. split; [exact E | apply withManager_twice].
    + intros [= <-]. exists (manager t s). by rewrite withManager_id.
  - intros [= <-]. exists (manager t s). by rewrite withManager_id.
Qed.

Lemma sameFrame_withManager t items s : sameFrame s (withManager t items s).
Proof. by destruct t. Qed.

Lemma sameFrame_trans s1 s2 s3 :
  sameFrame s1 s2 → sameFrame s2 s3 → sameFrame s1 s3.
Proof.
  unfold sameFrame. intros (?&?&?&?) (?&?&?&?). repeat split; congruence.
Qed.

Lemma condSync_Ok (b : bool) t storedIndex s s' :
  (if b then syncAncestor t storedIndex else mret tt) s = (s', Ok tt) →
  ∃ items, (if b then synced storedIndex (manager t s)
            else Some (manager t s)) = Some items
           ∧ s' = withManager t items s.
Proof.
  destruct b; [apply syncAncestor_Ok|].
  intros [= <-]. exists (manager t s). by rewrite withManager_id.
Qed.

Lemma updateHierarchyData_Ok element s s' :
  updateHierarchyData element s = (s', Ok tt) →
  sameFrame s s'
  ∧ ∀ t, syncedLevel element t (manager t s) = Some (manager t s').
Proof.
  unfold updateHierarchyData, syncedLevel. intros H.
  apply bind_Ok_inv in H as (s1 & [] & H1 & H).
  apply bind_Ok_inv in H as (s2 & [] & H2 & H3).
  apply condSync_Ok in H1 as (l1 & E1 & ->).
  apply condSync_Ok in H2 as (l2 & E2 & ->).
  apply syncAncestor_Ok in H3 as (l3 & E3 & ->).
  split; [ eauto using sameFrame_withManager, sameFrame_trans | ].
  rewrite manager_withManager_ne in E2 by done.
  rewrite !manager_withManager_ne in E3 by done.
  intros []; cbn [parentIndex];
    rewrite ?manager_withManager;
    repeat (rewrite manager_withManager_ne by done);
    rewrite ?manager_withManager; try done.
  all: by destruct (type element).
Qed.

(** ** The stores keep their items: only flags change *)

Lemma clearItem_withActive b it : clearItem (withActive b it) = clearItem it.
Proof. reflexivity. Qed.

Lemma clearItem_withCurrent b it : clearItem (withCurrent b it) = clearItem it.
Proof. reflexivity. Qed.

Lemma clearItem_idemp it : clearItem (clearItem it) = clearItem it.
Proof. reflexivity. Qed.

Lemma clear_idemp items :
  clearActiveAndCurrent (clearActiveAndCurrent items)
  = clearActiveAndCurrent items.
Proof.
  unfold clearActiveAndCurrent. rewrite <- list_fmap_compose.
  by apply list_fmap_ext.
Qed.

Lemma clear_alter f p items :
  (∀ it, clearItem (f it) = clearItem it) →
  clearActiveAndCurrent (alter f p items) = clearActiveAndCurrent items.
Proof.
  intros Hf. unfold clearActiveAndCurrent.
  revert p. induction items as [|x l IH]; intros [|p]; cbn; try done.
  - by rewrite Hf.
  - by rewrite IH.
Qed.

Lemma clear_markChildren c b items :
  clearActiveAndCurrent (markChildren c b items)
  = clearActiveAndCurrent items.
Proof.
  unfold clearActiveAndCurrent.
  revert b. induction items as [|x l IH]; intros b; cbn; [done|].
  destruct (c x); cbn; rewrite IH; [by destruct b | done].
Qed.

Lemma clear_setActive sel items items' :
  setActive sel items = Some items' →
  clearActiveAndCurrent items' = clearActiveAndCurrent items.
Proof.
  unfold setActive. destruct (locate sel items); [|done].
  intros [= <-]. by apply clear_alter.
Qed.

Lemma clear_setCurrent sel items items' :
  setCurrent sel items = Some items' →
  clearActiveAndCurrent items' = clearActiveAndCurrent items.
Proof.
  unfold setCurrent. destruct (locate sel items); [|done].
  intros [= <-]. by apply clear_alter.
Qed.

Lemma clear_selected sel items items' :
  selected sel items = Some items' →
  clearActiveAndCurrent items' = clearActiveAndCurrent items.
Proof.
  unfold selected. intros H.
  apply bind_Some in H as (l1 & H1 & H2).
  apply clear_setActive in H1. apply clear_setCurrent in H2. congruence.
Qed.

Lemma clear_synced storedIndex items items' :
  synced storedIndex items = Some items' →
  clearActiveAndCurrent items' = clearActiveAndCurrent items.
Proof.
  unfold synced. destruct storedIndex as [i|]; [|by intros [= <-]].
  destruct (decide (0 ≤ i)%Z); [|by intros [= <-]].
  intros H%clear_selected. by rewrite clear_idemp in H.
Qed.

Lemma clear_activateInputsFrom index fields activeFields inputs :
  clearActiveAndCurrent (activateInputsFrom index fields activeFields inputs)
  = clearActiveAndCurrent inputs.
Proof.
  revert index inputs. induction activeFields as [|f l IH]; intros; cbn;
    [done|].
  rewrite IH. apply clear_markChildren.
Qed.

Lemma clear_ids items items' :
  clearActiveAndCurrent items = clearActiveAndCurrent items' →
  itemId <$> items = itemId <$> items'.
Proof.
  intros H. apply (f_equal (fmap itemId)) in H.
  unfold clearActiveAndCurrent in H.
  by rewrite <- !list_fmap_compose in H.
Qed.

Lemma clear_length items items' :
  clearActiveAndCurrent items = clearActiveAndCurrent items' →
  length items = length items'.
Proof.
  intros H. apply (f_equal length) in H.
  unfold clearActiveAndCurrent in H. by rewrite !length_fmap in H.
Qed.

Lemma clear_lookup items items' i :
  clearActiveAndCurrent items = clearActiveAndCurrent items' →
  clearItem <$> items !! i = clearItem <$> items' !! i.
Proof.
  intros H. unfold clearActiveAndCurrent in H.
  by rewrite <- !list_lookup_fmap, H.
Qed.

Lemma resolvesTo_clearItem parents parentType parentId child :
  resolvesTo parents parentType parentId (clearItem child)
  = resolvesTo parents parentType parentId child.
Proof. reflexivity. Qed.

Lemma resolvesTo_parents parents parents' parentType parentId child :
  clearActiveAndCurrent parents = clearActiveAndCurrent parents' →
  resolvesTo parents parentType parentId child
  = resolvesTo parents' parentType parentId child.
Proof.
  intros H. unfold resolvesTo.
  destruct (parentIndex parentType (parentHierarchy child)) as [z|]; [|done].
  destruct (decide (0 ≤ z)%Z); [|done].
  pose proof (clear_lookup _ _ (Z.to_nat z) H) as Hl.
  destruct (parents !! Z.to_nat z) as [x|], (parents' !! Z.to_nat z) as [y|];
    try done.
  assert (itemId x = itemId y) as ->; [|done].
  apply (f_equal (fmap itemId)) in Hl. by injection Hl.
Qed.

Lemma markChildren_ext c c' b items :
  (∀ it, c it = c' it) → markChildren c b items = markChildren c' b items.
Proof.
  intros H. revert b. induction items as [|x l IH]; intros b; cbn; [done|].
  by rewrite H, !IH.
Qed.

Lemma setActiveByParent_parents parents parents' parentId parentType b items :
  clearActiveAndCurrent parents = clearActiveAndCurrent parents' →
  setActiveByParent parents parentId parentType b items
  = setActiveByParent parents' parentId parentType b items.
Proof.
  intros H. apply markChildren_ext. intros it.
  by apply resolvesTo_parents.
Qed.

(** ** What a resolver does once it has a target *)

Lemma sameFrame_mapManagers f s : sameFrame s (mapManagers f s).
Proof. done. Qed.

Lemma sameFrame_childrenActivated e s : sameFrame s (childrenActivated e s).
Proof. done. Qed.

Lemma manager_batched t s : manager t (batched s) = manager t s.
Proof. by destruct t. Qed.

Lemma manager_childrenActivated e s t :
  manager t (childrenActivated e s)
  = match t with
    | EInput =>
        let fields := fieldManager (childrenActivated e s) in
        activateInputsFrom 0 fields (getActive fields)
          (clearActiveAndCurrent (inputManager s))
    | _ =>
        if cascades (type e) t
        then setActiveByParent (manager (type e) s) (itemId e) (type e) true
               (manager t s)
        else manager t s
    end.
Proof.
  destruct t; try reflexivity.
  unfold childrenActivated, inputsActivated. cbn.
  by destruct (type e).
Qed.

Lemma select_steps_Ok t sel s s1 s2 :
  mgr_setActive t sel s = (s1, Ok tt) →
  mgr_setCurrent t sel s1 = (s2, Ok tt) →
  ∃ items, selected sel (manager t s) = Some items
           ∧ s2 = withManager t items s.
Proof.
  intros H1 H2. apply select_Ok. by rewrite bind_run, H1.
Qed.

(** The states a resolver goes through: cleared, target selected,
    children activated, ancestors synced, batched. *)
Lemma resolver_steps level d s s' r p e :
  level ≠ EInput →
  targetPosition level d s = Some p → manager level s !! p = Some e →
  resolverOf level d s = (s', Ok r) →
  r = Some level
  ∧ ∃ s2 s3,
      let s1 := mapManagers
                  (λ t items, if clears level t
                              then clearActiveAndCurrent items else items) s
      in
      (if bool_decide (level = EField) then s2 = s1
       else ∃ items, selected (ById (itemId e)) (manager level s1)
                     = Some items
                     ∧ s2 = withManager level items s1)
      ∧ (if bool_decide (level = ECard) then s3 = childrenActivated e s2
         else sameFrame s s3
              ∧ ∀ t, syncedLevel e t (manager t (childrenActivated e s2))
                     = Some (manager t s3))
      ∧ s' = batched s3.
Proof.
  intros Hl Hp He.
  destruct level; [| | | |done]; cbn [resolverOf];
    unfold byCard, bySet, byGroup, byField;
    rewrite bind_run, targetPositionOf_run, Hp, bind_run, gets_run;
    unfold getByIndex; cbn [manager] in He; rewrite He;
    rewrite bind_run, clearHierarchyData_run; intros H.
  1-3: apply bind_Ok_inv in H as (s1 & [] & H1 & H);
       apply bind_Ok_inv in H as (s2 & [] & H2 & H);
       destruct (select_steps_Ok _ _ _ _ _ H1 H2) as (l & El & ->);
       clear H1 H2.
  2-3: rewrite bind_run, setChildrenActive_run in H;
       apply bind_Ok_inv in H as (s3 & [] & H3 & H);
       apply updateHierarchyData_Ok in H3 as [HF H3].
  4: rewrite bind_run, setChildrenActive_run in H;
       apply bind_Ok_inv in H as (s3 & [] & H3 & H);
       apply updateHierarchyData_Ok in H3 as [HF H3].
  1: rewrite bind_run, setChildrenActive_run in H.
  all: rewrite bind_run, batchStateUpdates_run, mret_run in H;
       injection H as <- <-; (split; [done|]).
  all: eexists _, _; cbn zeta; eval_decide; cbv iota.
  all: repeat match goal with
       | |- _ ∧ _ => split
       | |- ∃ _, _ => eexists
       | |- sameFrame _ _ => 
           eapply sameFrame_trans; [|exact HF]; done
       end; try reflexivity; try eassumption.
Qed.

Lemma selected_clear_parents sel items items' :
  selected sel (clearActiveAndCurrent items) = Some items' →
  clearActiveAndCurrent items' = clearActiveAndCurrent items.
Proof. intros H%clear_selected. by rewrite clear_idemp in H. Qed.

Lemma syncedLevel_skip e t items items' :
  syncs (type e) t = false →
  syncedLevel e t items = Some items' → items' = items.
Proof. unfold syncedLevel. intros ->. by intros [= <-]. Qed.

Ltac level_goal El :=
  cbn [cascades clears syncs manager withManager mapManagers cardManager
       setManager groupManager fieldManager inputManager];
  eval_decide; cbv iota;
  first [ done
        | apply setActiveByParent_parents;
          by apply selected_clear_parents in El
        | idtac ].

Lemma resolver_Ok level d s s' r p e :
  type e = level → level ≠ EInput →
  targetPosition level d s = Some p → manager level s !! p = Some e →
  resolverOf level d s = (s', Ok r) →
  r = Some level
  ∧ ∃ s3, s' = batched s3 ∧ sameFrame s s3
          ∧ ∀ t, levelAfter level e s s3 t.
Proof.
  intros Ht Hl Hp He H.
  destruct (resolver_steps _ _ _ _ _ _ _ Hl Hp He H)
    as (-> & s2 & s3 & H2 & H3 & ->).
  split; [done|]. exists s3. split; [done|]. clear H.
  assert (∀ t, level ≠ ECard → syncs level t = false →
            manager t s3 = manager t (childrenActivated e s2)) as Hskip.
  { intros t Hc Hn. destruct level; try done; revert H3; eval_decide;
      cbv iota; intros [_ Hs]; eapply syncedLevel_skip, Hs;
      by rewrite Ht. }
  destruct level; [| | | |done]; revert H2 H3; eval_decide; cbv iota.
  - (* card *)
    intros (l & El & ->) ->. split; [done|].
    intros t. unfold levelAfter.
    change (inputManager ?x) with (manager EInput x).
    change (fieldManager ?x) with (manager EField x).
    destruct t;
      [ rewrite manager_childrenActivated, ?Ht; level_goal El ..
      | rewrite (manager_childrenActivated _ _ EInput); reflexivity ].
  - (* set *)
    intros (l & El & ->) [HF Hs]. split; [done|].
    intros t. unfold levelAfter.
    change (inputManager ?x) with (manager EInput x).
    change (fieldManager ?x) with (manager EField x).
    destruct t.
    + specialize (Hs ECard). rewrite manager_childrenActivated, Ht in Hs.
      level_goal El. 
    + rewrite Hskip by done. rewrite manager_childrenActivated, Ht. level_goal El.
    + rewrite Hskip by done. rewrite manager_childrenActivated, Ht. level_goal El.
    + rewrite Hskip by done. rewrite manager_childrenActivated, Ht. level_goal El.
    + rewrite !Hskip by done. rewrite (manager_childrenActivated _ _ EInput). reflexivity.
  - (* group *)
    intros (l & El & ->) [HF Hs]. split; [done|].
    intros t. unfold levelAfter.
    change (inputManager ?x) with (manager EInput x).
    change (fieldManager ?x) with (manager EField x).
    destruct t.
    + specialize (Hs ECard). rewrite manager_childrenActivated, Ht in Hs.
      level_goal El.
    + specialize (Hs ESet). rewrite manager_childrenActivated, Ht in Hs.
      level_goal El.
    + rewrite Hskip by done. rewrite manager_childrenActivated, Ht. level_goal El.
    + rewrite Hskip by done. rewrite manager_childrenActivated, Ht. level_goal El.
    + rewrite !Hskip by done. rewrite (manager_childrenActivated _ _ EInput). reflexivity.
  - (* field *)
    intros -> [HF Hs]. split; [done|].
    intros t. unfold levelAfter.
    change (inputManager ?x) with (manager EInput x).
    change (fieldManager ?x) with (manager EField x).
    destruct t.
    + specialize (Hs ECard). rewrite manager_childrenActivated, Ht in Hs.
      level_goal Ht.
    + specialize (Hs ESet). rewrite manager_childrenActivated, Ht in Hs.
      level_goal Ht.
    + specialize (Hs EGroup). rewrite manager_childrenActivated, Ht in Hs.
      level_goal Ht.
    + rewrite Hskip by done. rewrite manager_childrenActivated, Ht. level_goal Ht.
    + rewrite !Hskip by done. rewrite (manager_childrenActivated _ _ EInput). reflexivity.
Qed.

(** ** Boundaries and outcomes of the resolvers *)

Lemma resolver_boundary level d s :
  targetPosition level d s = None →
  resolverOf level d s
  = match coarser level with
    | Some up => resolverOf up d s
    | None => (s, Ok None)
    end.
Proof.
  intros Hp.
  destruct level; cbn [resolverOf coarser];
    unfold byCard, bySet, byGroup, byField;
    rewrite ?bind_run, ?targetPositionOf_run, ?Hp; reflexivity.
Qed.

Lemma wellTyped_lookup s t p e :
  wellTyped s → manager t s !! p = Some e → type e = t.
Proof.
  intros Hw He. specialize (Hw t). rewrite forallb_forall in Hw.
  assert (bool_decide (type e = t) = true) as H%bool_decide_eq_true; [|done].
  apply Hw, list_elem_of_In. by eapply list_elem_of_lookup_2.
Qed.

Lemma resolver_found level d s s' r p :
  level ≠ EInput → targetPosition level d s = Some p →
  resolverOf level d s = (s', Ok r) →
  ∃ e, manager level s !! p = Some e.
Proof.
  intros Hl Hp.
  destruct (manager level s !! p) as [e|] eqn:He; [eauto|].
  destruct level; [| | | |done]; cbn [resolverOf];
    unfold byCard, bySet, byGroup, byField;
    rewrite bind_run, targetPositionOf_run, Hp, bind_run, gets_run;
    unfold getByIndex; cbn [manager] in He; rewrite He; done.
Qed.

Lemma resolver_outcome level d s s' r :
  wellTyped s → level ≠ EInput →
  resolverOf level d s = (s', Ok r) →
  (r = None ∧ s' = s)
  ∨ ∃ L p e, r = Some L ∧ movedTo L d p e s s'.
Proof.
  intros Hw.
  assert (∀ level, level ≠ EInput →
     (∀ up, coarser level = Some up →
        resolverOf up d s = (s', Ok r) →
        (r = None ∧ s' = s) ∨ ∃ L p e, r = Some L ∧ movedTo L d p e s s') →
     resolverOf level d s = (s', Ok r) →
     (r = None ∧ s' = s) ∨ ∃ L p e, r = Some L ∧ movedTo L d p e s s')
    as Hstep.
  { intros lv Hl Hup H.
    destruct (targetPosition lv d s) as [p|] eqn:Hp.
    - destruct (resolver_found _ _ _ _ _ _ Hl Hp H) as [e He].
      pose proof (wellTyped_lookup _ _ _ _ Hw He) as Ht.
      destruct (resolver_Ok _ _ _ _ _ _ _ Ht Hl Hp He H) as (-> & Hs3).
      right. exists lv, p, e. split; [done|]. by repeat split.
    - rewrite (resolver_boundary _ _ _ Hp) in H.
      destruct (coarser lv) as [up|] eqn:Hc; [by eapply Hup|].
      injection H as <- <-. by left. }
  assert (resolverOf ECard d s = (s', Ok r) →
     (r = None ∧ s' = s) ∨ ∃ L p e, r = Some L ∧ movedTo L d p e s s')
    as Hcard.
  { apply (Hstep ECard); [done|]. intros up [=]. }
  assert (resolverOf ESet d s = (s', Ok r) →
     (r = None ∧ s' = s) ∨ ∃ L p e, r = Some L ∧ movedTo L d p e s s')
    as Hset.
  { apply (Hstep ESet); [done|]. by intros up [= <-]. }
  assert (resolverOf EGroup d s = (s', Ok r) →
     (r = None ∧ s' = s) ∨ ∃ L p e, r = Some L ∧ movedTo L d p e s s')
    as Hgroup.
  { apply (Hstep EGroup); [done|]. by intros up [= <-]. }
  intros Hl. destruct level; [done|done|done| |done].
  apply (Hstep EField); [done|]. by intros up [= <-].
Qed.

(** ** Flags after the store operations *)

Lemma currentCount_cons x items :
  currentCount (x :: items)
  = (if current x then 1 else 0) + currentCount items.
Proof. unfold currentCount. cbn. by destruct (current x). Qed.

Lemma currentCount_clear items :
  currentCount (clearActiveAndCurrent items) = 0.
Proof.
  induction items as [|x l IH]; [done|].
  unfold clearActiveAndCurrent in *. rewrite fmap_cons, currentCount_cons.
  by rewrite IH.
Qed.

Lemma coherent_cons x items :
  coherent (x :: items)
  ↔ implb (current x) (active x) = true ∧ coherent items.
Proof. unfold coherent. cbn. by rewrite andb_true_iff. Qed.

Lemma coherent_clear items : coherent (clearActiveAndCurrent items).
Proof.
  induction items as [|x l IH]; [done|].
  unfold clearActiveAndCurrent in *. rewrite fmap_cons.
  by apply coherent_cons.
Qed.

Lemma exclusive_clear items : exclusive (clearActiveAndCurrent items).
Proof.
  split; [rewrite currentCount_clear; lia | apply coherent_clear].
Qed.

Lemma currentCount_alter_select p items :
  currentCount
    (alter (λ it, withCurrent true (withActive true it)) p items)
  ≤ S (currentCount items).
Proof.
  revert p. induction items as [|x l IH]; intros [|p]; cbn [alter list_alter];
    rewrite ?currentCount_cons; cbn; try lia.
  specialize (IH p). destruct (current x); lia.
Qed.

Lemma coherent_alter_select p items :
  coherent items →
  coherent (alter (λ it, withCurrent true (withActive true it)) p items).
Proof.
  revert p. induction items as [|x l IH]; intros [|p]; cbn [alter list_alter];
    rewrite ?coherent_cons; try done.
  - intros [_ ?]. by split.
  - intros [? ?]. split; [done|]. by apply IH.
Qed.

Lemma locate_alter f sel p items :
  (∀ it, itemId (f it) = itemId it) →
  locate sel (alter f p items) = locate sel items.
Proof.
  intros Hf. destruct sel as [i|z]; cbn [locate].
  - revert p. induction items as [|x l IH]; intros [|p]; try done.
    + cbn. rewrite Hf. by destruct (decide (itemId x = i)).
    + cbn. destruct (decide (itemId x = i)); [done|].
      specialize (IH p).
      assert (∀ o : option (nat * Item),
                fst <$> (prod_map S id <$> o) = S <$> (fst <$> o)) as E
        by (by intros [[]|]).
      by rewrite !E, IH.
  - by rewrite length_alter.
Qed.

Lemma selected_alter sel items items' :
  selected sel items = Some items' →
  ∃ p, locate sel items = Some p
       ∧ items' = alter (λ it, withCurrent true (withActive true it)) p items.
Proof.
  unfold selected, setActive, setCurrent. intros H.
  apply bind_Some in H as (l1 & H1 & H2).
  destruct (locate sel items) as [p|] eqn:Hp; [|done].
  injection H1 as <-. rewrite locate_alter, Hp in H2 by done.
  injection H2 as <-. exists p. split; [done|].
  by rewrite list_alter_alter_eq.
Qed.

Lemma exclusive_selected sel items items' :
  selected sel (clearActiveAndCurrent items) = Some items' →
  exclusive items'.
Proof.
  intros (p & _ & ->)%selected_alter. split.
  - etrans; [apply currentCount_alter_select|].
    by rewrite currentCount_clear.
  - apply coherent_alter_select, coherent_clear.
Qed.

Lemma currentCount_markChildren c b items :
  currentCount (markChildren c b items)
  ≤ currentCount items + (if b then 1 else 0).
Proof.
  revert b. induction items as [|x l IH]; intros b; cbn [markChildren];
    [unfold currentCount; cbn; lia|].
  destruct (c x); rewrite !currentCount_cons.
  - specialize (IH false). cbn in IH.
    destruct b, (current x) eqn:Hx; cbn; rewrite ?Hx; lia.
  - specialize (IH b). destruct b, (current x); lia.
Qed.

Lemma coherent_markChildren c b items :
  coherent items → coherent (markChildren c b items).
Proof.
  revert b. induction items as [|x l IH]; intros b; cbn [markChildren];
    [done|].
  rewrite coherent_cons. intros [Hx Hl].
  destruct (c x); rewrite coherent_cons; (split; [|by apply IH]).
  - destruct b; cbn; [done|]. by destruct (current x).
  - done.
Qed.

Lemma exclusive_setActiveByParent parents parentId parentType items :
  exclusive
    (setActiveByParent parents parentId parentType true
       (clearActiveAndCurrent items)).
Proof.
  split.
  - etrans; [apply currentCount_markChildren|].
    rewrite currentCount_clear. lia.
  - apply coherent_markChildren, coherent_clear.
Qed.

Lemma currentCount_activateInputsFrom index fields activeFields inputs :
  currentCount (activateInputsFrom index fields activeFields inputs)
  ≤ currentCount inputs + (if bool_decide (index = 0) then 1 else 0).
Proof.
  revert index inputs.
  induction activeFields as [|f l IH]; intros index inputs;
    cbn [activateInputsFrom]; [destruct (bool_decide (index = 0)); lia|].
  pose proof (IH (S index)
                (setActiveByParent fields (itemId f) EField
                   (bool_decide (index = 0)) inputs)) as H1.
  rewrite (bool_decide_eq_false_2 (S index = 0)) in H1 by done.
  pose proof (currentCount_markChildren
                (resolvesTo fields EField (itemId f))
                (bool_decide (index = 0)) inputs) as H2.
  unfold setActiveByParent in *.
  change (if false then 1 else 0) with 0 in H1.
  destruct (bool_decide (index = 0)); lia.
Qed.

Lemma coherent_activateInputsFrom index fields activeFields inputs :
  coherent inputs →
  coherent (activateInputsFrom index fields activeFields inputs).
Proof.
  revert index inputs.
  induction activeFields as [|f l IH]; intros index inputs H;
    cbn [activateInputsFrom]; [done|].
  by apply IH, coherent_markChildren.
Qed.

Lemma exclusive_activateInputs fields activeFields inputs :
  exclusive
    (activateInputsFrom 0 fields activeFields (clearActiveAndCurrent inputs)).
Proof.
  split.
  - pose proof (currentCount_activateInputsFrom 0 fields activeFields
                  (clearActiveAndCurrent inputs)) as H.
    rewrite currentCount_clear in H. exact H.
  - apply coherent_activateInputsFrom, coherent_clear.
Qed.

Lemma exclusive_synced storedIndex items items' :
  exclusive items → synced storedIndex items = Some items' →
  exclusive items'.
Proof.
  intros Hex. unfold synced. destruct storedIndex as [i|]; [|by intros [= <-]].
  destruct (decide (0 ≤ i)%Z); [|by intros [= <-]].
  apply exclusive_selected.
Qed.

Lemma exclusive_levelAfter level e s s3 t :
  Exclusivity s → levelAfter level e s s3 t → exclusive (manager t s3).
Proof.
  intros Hex. unfold levelAfter. pose proof (Hex t) as Ht.
  destruct t; cbn [manager] in *;
    [ | | | | intros ->; apply exclusive_activateInputs ].
  all: destruct (cascades level _);
         [ intros ->; apply exclusive_setActiveByParent |].
  all: destruct (bool_decide (_ = level));
         [ destruct (bool_decide (level = EField));
           [ intros [= <-]; apply exclusive_clear
           | apply exclusive_selected ]
         | unfold syncedLevel; destruct (syncs _ _);
           [ by apply exclusive_synced
           | by intros [= <-] ] ].
Qed.

(** ** Outcomes of [handleMove] *)

Lemma discard_Ok {A} (m : M A) s s' :
  (m ;; mret tt) s = (s', Ok tt) → ∃ r, m s = (s', Ok r).
Proof.
  intros H. apply bind_Ok_inv in H as (s1 & r & H1 & H2).
  injection H2 as <-. eauto.
Qed.

Lemma stepModeSwitch_Ok b d s s' :
  stepModeSwitch b d s = (s', Ok tt) →
  ∃ level r, level ≠ EInput ∧ resolverOf level d s = (s', Ok r).
Proof.
  unfold stepModeSwitch.
  repeat (destruct (bool_decide (b = _));
          [ intros [r H]%discard_Ok;
            first [ by exists EField, r | by exists EGroup, r
                  | by exists ESet, r | by exists ECard, r ] |]).
  done.
Qed.

Lemma handleMove_Ok d s s' :
  handleMove d s = (s', Ok tt) →
  s' = s ∨ s' = denied s
  ∨ ∃ level d' r, level ≠ EInput ∧ resolverOf level d' s = (s', Ok r).
Proof.
  unfold handleMove. rewrite bind_run, gets_run.
  destruct (navigationEnabled s); cbn [negb]; [|intros [= <-]; by left].
  rewrite bind_run, validateCurrent_run, bind_run, gets_run.
  destruct (negb _); [intros [= <-]; right; by left|].
  destruct (bool_decide (d = submit)).
  - intros [r H]%discard_Ok. right; right. by exists ECard, next, r.
  - intros (level & r & ? & ?)%stepModeSwitch_Ok. right; right.
    by exists level, d, r.
Qed.

Lemma movedTo_exclusive level d p e s s' :
  Exclusivity s → movedTo level d p e s s' → Exclusivity s'.
Proof.
  intros Hex (_ & _ & _ & _ & s3 & -> & _ & Hl) t.
  rewrite manager_batched. by eapply exclusive_levelAfter.
Qed.

Lemma resolver_exclusive level d s s' r :
  wellTyped s → Exclusivity s → resolverOf level d s = (s', Ok r) →
  Exclusivity s'.
Proof.
  intros Hw Hex H. destruct (decide (level = EInput)) as [->|Hl].
  { by injection H as <- <-. }
  destruct (resolver_outcome _ _ _ _ _ Hw Hl H)
    as [[_ ->]|(L & p & e & _ & Hm)]; [done|].
  by eapply movedTo_exclusive.
Qed.

(** C4: on stores whose items have the type of their level, a completed
    [handleMove], and each of the resolvers [byField], [byGroup], [bySet]
    and [byCard], keeps at every level (card, set, group, field, input) at
    most one current item, and every current item active. *)
Theorem exclusivity_preserved :
  (∀ d s s',
     wellTyped s → Exclusivity s → handleMove d s = (s', Ok tt) →
     Exclusivity s')
  ∧ (∀ resolver d s s' r,
       resolver ∈ [byField; byGroup; bySet; byCard] →
       wellTyped s → Exclusivity s → resolver d s = (s', Ok r) →
       Exclusivity s').
Proof.
  split.
  - intros d s s' Hw Hex H.
    destruct (handleMove_Ok _ _ _ H)
      as [->|[->|(level & d' & r & _ & Hr)]]; [done| |].
    + intros t. specialize (Hex t). by destruct t.
    + by eapply resolver_exclusive.
  - intros resolver d s s' r Hin Hw Hex H.
    repeat (apply elem_of_cons in Hin as [->|Hin]);
      [ apply (resolver_exclusive EField d s s' r)
      | apply (resolver_exclusive EGroup d s s' r)
      | apply (resolver_exclusive ESet d s s' r)
      | apply (resolver_exclusive ECard d s s' r) | ]; try done.
    by apply elem_of_nil in Hin.
Qed.

(** ** C1, C2, C5, C9: guards and dispatch of [handleMove] *)

Lemma targetPosition_submit t s :
  targetPosition t submit s = targetPosition t next s.
Proof. reflexivity. Qed.

(** C2: a resolver whose store has no next or previous position hands
    over to the next coarser resolver with the same direction (field to
    group, group to set, set to card); at the card boundary [byCard]
    returns undefined with the state untouched, and a [handleMove] in
    field mode that finds no position at any level ends with no store
    changed, no rebuild and no commit. *)
Theorem boundary_fallthrough d s :
  (targetPosition EField d s = None → byField d s = byGroup d s)
  ∧ (targetPosition EGroup d s = None → byGroup d s = bySet d s)
  ∧ (targetPosition ESet d s = None → bySet d s = byCard d s)
  ∧ (targetPosition ECard d s = None → byCard d s = (s, Ok None))
  ∧ (navigationEnabled s = true → behavior s = "byField" →
     d = prev ∨ allValid s →
     (∀ t, t ≠ EInput → targetPosition t d s = None) →
     handleMove d s = (s, Ok tt)).
Proof.
  repeat split.
  - apply (resolver_boundary EField).
  - apply (resolver_boundary EGroup).
  - apply (resolver_boundary ESet).
  - apply (resolver_boundary ECard).
  - intros Hen Hb Hv Hnone.
    assert (byCard d s = (s, Ok None)) as Hc
      by (apply (resolver_boundary ECard), Hnone; done).
    assert (byField d s = (s, Ok None)) as Hf.
    { etrans; [apply (resolver_boundary EField), Hnone; done|].
      etrans; [apply (resolver_boundary EGroup), Hnone; done|].
      etrans; [apply (resolver_boundary ESet), Hnone; done|]. exact Hc. }
    destruct (decide (d = prev)) as [->|Hd].
    + rewrite handleMove_prev by done. unfold stepModeSwitch.
      rewrite Hb. eval_decide. cbv iota. by rewrite bind_run, Hf.
    + destruct Hv as [?|Hv]; [done|].
      rewrite handleMove_allowed by done.
      destruct d; [done| |]; eval_decide; cbv iota.
      * unfold stepModeSwitch. rewrite Hb. eval_decide. cbv iota.
        by rewrite bind_run, Hf.
      * assert (byCard next s = (s, Ok None)) as Hn
          by (apply (resolver_boundary ECard next s), (Hnone ECard); done).
        by rewrite bind_run, Hn.
Qed.

(** ** What every run of a method keeps

    The lemmas of this section hold for any relation [R] between the
    state before and after that is a preorder, is kept by a store update
    and by the effects in [okEffect], and for any class [okError] of
    errors that holds the two errors the resolvers throw. *)

Section Within.

Variable R : Form → Form → Prop.
Variable okEffect : Effect → Prop.
Variable okError : FormError → Prop.

Hypothesis R_refl : ∀ s, R s s.
Hypothesis R_trans : ∀ s1 s2 s3, R s1 s2 → R s2 s3 → R s1 s3.
Hypothesis R_manager : ∀ t items s, R s (withManager t items s).
Hypothesis R_effect :
  ∀ e s, okEffect e → R s (withTrace (trace s ++ [e]) s).
Hypothesis ok_rebuilt : ∀ t, okEffect (Rebuilt t).
Hypothesis ok_statesSet : ∀ p, okEffect (StatesSet p).
Hypothesis ok_notFound : ∀ t sel, okError (notFound t sel).
Hypothesis ok_nullTarget : ∀ msg p d, okError (nullTarget msg p d).

Lemma within_ret {A} (a : A) : within R okError (mret a : M A).
Proof. intros s s' r [= <- <-]. by split. Qed.

Lemma within_gets {A} (f : Form → A) : within R okError (gets f).
Proof. intros s s' r [= <- <-]. by split. Qed.

Lemma within_bind {A B} (m : M A) (k : A → M B) :
  within R okError m → (∀ a, within R okError (k a)) →
  within R okError (m ≫= k).
Proof.
  intros Hm Hk s s' r. rewrite bind_run.
  destruct (m s) as [s1 [a|e]] eqn:E.
  - intros H2. destruct (Hm _ _ _ E) as [R1 _].
    destruct (Hk a _ _ _ H2) as [R2 He]. split; [|done].
    by eapply R_trans.
  - intros [= <- <-]. destruct (Hm _ _ _ E) as [? He]. split; [done|].
    intros e' [= <-]. by apply He.
Qed.

Lemma within_if {A} (b : bool) (m1 m2 : M A) :
  within R okError m1 → within R okError m2 →
  within R okError (if b then m1 else m2).
Proof. by destruct b. Qed.

Lemma within_record e : okEffect e → within R okError (record e).
Proof. intros He s s' r [= <- <-]. split; [by apply R_effect | done]. Qed.

Lemma within_throw {A} e : okError e → within R okError (throw e : M A).
Proof. intros He s s' r [= <- <-]. split; [done|]. by intros e' [= <-]. Qed.

Lemma within_clear t : within R okError (mgr_clearActiveAndCurrent t).
Proof. intros s s' r [= <- <-]. by split. Qed.

Lemma within_setActiveByParent t parentId parentType b :
  within R okError (mgr_setActiveByParent t parentId parentType b).
Proof. intros s s' r [= <- <-]. by split. Qed.

Lemma within_setActive t sel : within R okError (mgr_setActive t sel).
Proof.
  intros s s' r. unfold mgr_setActive.
  destruct (setActive sel (manager t s)); intros [= <- <-];
    (split; [done|]); [done|]. by intros e [= <-].
Qed.

Lemma within_setCurrent t sel : within R okError (mgr_setCurrent t sel).
Proof.
  intros s s' r. unfold mgr_setCurrent.
  destruct (setCurrent sel (manager t s)); intros [= <- <-];
    (split; [done|]); [done|]. by intros e [= <-].
Qed.

Lemma within_forEachFrom {A} index (f : A → nat → M unit) l :
  (∀ x i, within R okError (f x i)) →
  within R okError (forEachFrom index f l).
Proof.
  intros Hf. revert index. induction l as [|x l IH]; intros index;
    cbn [forEachFrom]; [apply within_ret|].
  apply within_bind; [apply Hf | intros _; apply IH].
Qed.

(** One step of a proof that a method is [within]: the head of the
    method decides the lemma. *)
Ltac within_step :=
  lazymatch goal with
  | |- within _ _ (mgr_clearActiveAndCurrent _) => apply within_clear
  | |- within _ _ (mgr_setActiveByParent _ _ _ _) =>
      apply within_setActiveByParent
  | |- within _ _ (mgr_setActive _ _) => apply within_setActive
  | |- within _ _ (mgr_setCurrent _ _) => apply within_setCurrent
  | |- within _ _ (mgr_rebuildAll _) => apply within_record, ok_rebuilt
  | |- within _ _ (mgr_calculateStates _) => apply within_gets
  | |- within _ _ (setStates _) => apply within_record, ok_statesSet
  | |- within _ _ (gets _) => apply within_gets
  | |- within _ _ (targetPositionOf _ _) => apply within_gets
  | |- within _ _ (mret _) => apply within_ret
  | |- within _ _ (throw (nullTarget _ _ _)) =>
      apply within_throw, ok_nullTarget
  | |- within _ _ (forEach _ _) =>
      apply within_forEachFrom; intros ? ?
  | |- within _ _ (_ ≫= _) => apply within_bind; [|intros ?]
  | |- within _ _ (match ?x with _ => _ end) => destruct x
  end.

Lemma within_clearHierarchyData t :
  within R okError (clearHierarchyData t).
Proof. unfold clearHierarchyData. repeat within_step. Qed.

Lemma within_setChildrenActive e : within R okError (setChildrenActive e).
Proof. unfold setChildrenActive. repeat within_step. Qed.

Lemma within_syncAncestor t storedIndex :
  within R okError (syncAncestor t storedIndex).
Proof. unfold syncAncestor. repeat within_step. Qed.

Lemma within_updateHierarchyData e :
  within R okError (updateHierarchyData e).
Proof.
  unfold updateHierarchyData.
  repeat first [apply within_syncAncestor | within_step].
Qed.

Lemma within_batchStateUpdates : within R okError batchStateUpdates.
Proof. unfold batchStateUpdates. repeat within_step. Qed.

Ltac within_call :=
  first [ apply within_clearHierarchyData | apply within_setChildrenActive
        | apply within_updateHierarchyData
        | apply within_batchStateUpdates | within_step ].

Lemma within_byCard d : within R okError (byCard d).
Proof. unfold byCard. repeat within_call. Qed.

Lemma within_bySet d : within R okError (bySet d).
Proof.
  unfold bySet. repeat first [apply within_byCard | within_call].
Qed.

Lemma within_byGroup d : within R okError (byGroup d).
Proof.
  unfold byGroup. repeat first [apply within_bySet | within_call].
Qed.

Lemma within_byField d : within R okError (byField d).
Proof.
  unfold byField. repeat first [apply within_byGroup | within_call].
Qed.

Lemma within_resolver level d : within R okError (resolverOf level d).
Proof.
  destruct level; cbn [resolverOf];
    auto using within_byCard, within_bySet, within_byGroup, within_byField,
      within_ret.
Qed.

Lemma within_stepModeSwitch b d :
  okError (invalidBehavior b) → within R okError (stepModeSwitch b d).
Proof.
  intros Hb. unfold stepModeSwitch.
  repeat first
    [ apply within_byCard | apply within_bySet | apply within_byGroup
    | apply within_byField | by apply within_throw | within_step ].
Qed.

Lemma within_handleMove d :
  okEffect (Emitted (NavigationDenied invalid)) →
  (∀ b, okError (invalidBehavior b)) →
  within R okError (handleMove d).
Proof.
  intros Hd Hb. unfold handleMove, validateCurrent, emitDenied.
  repeat first
    [ apply within_byCard | by apply within_stepModeSwitch
    | by apply within_record | within_step ].
Qed.

Lemma within_enterKeyHandler event activeElement :
  (∀ e, okEffect e) → (∀ b, okError (invalidBehavior b)) →
  within R okError (enterKeyHandler event activeElement).
Proof.
  intros He Hb.
  unfold enterKeyHandler, emitNavigationRequest, emitSubmitRequested,
    handleSubmit.
  repeat first
    [ by apply within_handleMove | by apply within_record | within_step ].
Qed.

End Within.

(** ** Methods that neither deny nor reject the behavior *)

Lemma quiet_app a b : quiet a → quiet b → quiet (a ++ b).
Proof. unfold quiet. rewrite forallb_app. by intros -> ->. Qed.

Lemma grewQuietly_refl s : grewQuietly s s.
Proof. exists []. by rewrite app_nil_r. Qed.

Lemma grewQuietly_trans s1 s2 s3 :
  grewQuietly s1 s2 → grewQuietly s2 s3 → grewQuietly s1 s3.
Proof.
  intros (x1 & T1 & Q1) (x2 & T2 & Q2). exists (x1 ++ x2).
  rewrite T2, T1, app_assoc. split; [done | by apply quiet_app].
Qed.

Lemma grewQuietly_manager t items s : grewQuietly s (withManager t items s).
Proof. exists []. rewrite app_nil_r. split; [by destruct t | done]. Qed.

Lemma grewQuietly_effect e s :
  isDenial e = false → grewQuietly s (withTrace (trace s ++ [e]) s).
Proof.
  intros He. exists [e]. split; [done|]. unfold quiet. cbn. by rewrite He.
Qed.

Lemma discreet_resolver level d : discreet (resolverOf level d).
Proof.
  apply (within_resolver grewQuietly (λ e, isDenial e = false)).
  - apply grewQuietly_refl.
  - apply grewQuietly_trans.
  - apply grewQuietly_manager.
  - apply grewQuietly_effect.
  - done.
  - done.
  - by intros t sel b.
  - by intros msg p d' b.
Qed.

Lemma discreet_stepModeSwitch b d :
  knownBehavior b → discreet (stepModeSwitch b d).
Proof.
  intros Hb. unfold stepModeSwitch.
  destruct Hb as [-> | [-> | [-> | ->]]]; eval_decide; cbv iota;
    (apply within_bind; [apply grewQuietly_trans| |intros ?;
                         apply within_ret, grewQuietly_refl]).
  - apply (discreet_resolver EField).
  - apply (discreet_resolver EGroup).
  - apply (discreet_resolver ESet).
  - apply (discreet_resolver ECard).
Qed.

(** ** The configuration is never written

    No method assigns [navigationEnabled] or the behavior: every run of
    [handleMove] and of the Enter handler, completed or thrown, leaves
    them as they were.  The flag is initialised to true. *)

Lemma sameConfig_manager t items s : sameConfig s (withManager t items s).
Proof. by destruct t. Qed.

Lemma handleMove_keeps_config d s s' r :
  handleMove d s = (s', r) → sameConfig s s'.
Proof.
  intros H.
  assert (within sameConfig (λ _, True) (handleMove d)) as W.
  { apply (within_handleMove sameConfig (λ _, True)); try done.
    - intros ? ? ? [? ?] [? ?]. split; congruence.
    - apply sameConfig_manager. }
  by destruct (W _ _ _ H).
Qed.

Lemma enterKeyHandler_keeps_config event activeElement s s' r :
  enterKeyHandler event activeElement s = (s', r) → sameConfig s s'.
Proof.
  intros H.
  assert (within sameConfig (λ _, True)
            (enterKeyHandler event activeElement)) as W.
  { apply (within_enterKeyHandler sameConfig (λ _, True)); try done.
    - intros ? ? ? [? ?] [? ?]. split; congruence.
    - apply sameConfig_manager. }
  by destruct (W _ _ _ H).
Qed.

Lemma stepModeSwitch_unknown b d s :
  ¬ knownBehavior b →
  stepModeSwitch b d s = (s, Thrown (invalidBehavior b)).
Proof.
  intros Hb. unfold stepModeSwitch, knownBehavior in *.
  repeat (rewrite bool_decide_eq_false_2 by tauto). reflexivity.
Qed.

Lemma knownBehavior_dec b : knownBehavior b ∨ ¬ knownBehavior b.
Proof.
  unfold knownBehavior.
  destruct (decide (b = "byField")), (decide (b = "byGroup")),
    (decide (b = "bySet")), (decide (b = "byCard")); tauto.
Qed.

(** C1: with navigation enabled (the flag is initialised to true and
    never assigned, see [handleMove_keeps_config]), if some active and
    included input is invalid then
    [handleMove next] and [handleMove submit] emit the denied event with
    reason invalid and change nothing else: no store, no rebuild, no
    commit.  [handleMove prev] goes to the step-mode switch whatever the
    validity of the inputs, and appends no denied event to the trace. *)
Theorem denial_on_invalid s :
  navigationEnabled s = true →
  (someInvalid s →
   handleMove next s = (denied s, Ok tt)
   ∧ handleMove submit s = (denied s, Ok tt))
  ∧ handleMove prev s = stepModeSwitch (behavior s) prev s
  ∧ (∀ s' r, handleMove prev s = (s', r) →
       ∃ extra, trace s' = trace s ++ extra ∧ quiet extra).
Proof.
  intros Hen. split; [|split].
  - intros Hinv. split; by apply handleMove_denied.
  - by apply handleMove_prev.
  - intros s' r. rewrite handleMove_prev by done.
    destruct (knownBehavior_dec (behavior s)) as [Hb|Hb].
    + intros H. by destruct (discreet_stepModeSwitch _ prev Hb _ _ _ H).
    + rewrite stepModeSwitch_unknown by done. intros [= <- <-].
      exists []. by rewrite app_nil_r.
Qed.

Lemma demoInvalid_someInvalid : someInvalid demoInvalid.
Proof.
  eexists. split; [apply list_elem_of_here|]. by repeat split.
Qed.

Lemma denial_on_invalid_witness :
  handleMove next demoInvalid = (denied demoInvalid, Ok tt)
  ∧ handleMove submit demoInvalid = (denied demoInvalid, Ok tt).
Proof.
  apply (denial_on_invalid demoInvalid); [reflexivity|].
  apply demoInvalid_someInvalid.
Defined.

(** C5: with navigation enabled and every active and included input
    valid, [handleMove submit] is the card resolver moving next, whatever
    the configured step mode; in card mode it is [handleMove next]. *)
Theorem submit_is_card_next s :
  navigationEnabled s = true → allValid s →
  handleMove submit s = (byCard next ;; mret tt) s
  ∧ (behavior s = "byCard" → handleMove submit s = handleMove next s).
Proof.
  intros Hen Hv. split.
  - by rewrite handleMove_allowed.
  - intros Hb. rewrite !handleMove_allowed by done. eval_decide. cbv iota.
    unfold stepModeSwitch. rewrite Hb. by eval_decide.
Qed.

Lemma demoForm_allValid : allValid demoForm.
Proof.
  intros input Hin _ _.
  repeat (apply elem_of_cons in Hin as [->|Hin]; [done|]).
  by apply elem_of_nil in Hin.
Qed.

Lemma submit_is_card_next_witness :
  handleMove submit demoForm = (byCard next ;; mret tt) demoForm
  ∧ (behavior demoForm = "byCard" →
     handleMove submit demoForm = handleMove next demoForm).
Proof.
  apply (submit_is_card_next demoForm); [reflexivity|].
  apply demoForm_allValid.
Defined.

(** C9, as the code has it: with navigation enabled and validation
    passing, [handleMove prev] and [handleMove next] throw the invalid
    behavior error carrying the behavior value, and change nothing, when
    the behavior is none of byField, byGroup, bySet, byCard;
    [handleMove submit] does not consult the behavior: it runs the card
    resolver and never throws that error. *)
Theorem unknown_behavior_fatal d s :
  navigationEnabled s = true → d = prev ∨ allValid s →
  ¬ knownBehavior (behavior s) →
  (d ≠ submit →
   handleMove d s = (s, Thrown (invalidBehavior (behavior s))))
  ∧ (d = submit →
     handleMove d s = (byCard next ;; mret tt) s
     ∧ ∀ s' e, handleMove d s = (s', Thrown e) →
               e ≠ invalidBehavior (behavior s)).
Proof.
  intros Hen Hv Hb. split.
  - intros Hd. destruct (decide (d = prev)) as [->|Hp].
    + rewrite handleMove_prev by done. by apply stepModeSwitch_unknown.
    + destruct Hv as [?|Hv]; [done|].
      rewrite handleMove_allowed by done.
      rewrite bool_decide_eq_false_2 by done.
      by apply stepModeSwitch_unknown.
  - intros ->. destruct Hv as [?|Hv]; [done|].
    rewrite handleMove_allowed by done. eval_decide. cbv iota.
    split; [done|]. intros s' e H ->.
    assert (discreet (byCard next ;; mret tt)) as Hd.
    { apply within_bind; [apply grewQuietly_trans | |].
      - apply (discreet_resolver ECard).
      - intros ?. apply within_ret, grewQuietly_refl. }
    destruct (Hd _ _ _ H) as [_ Hc]. by eapply Hc.
Qed.

Lemma unknown_behavior_fatal_witness :
  handleMove next (withBehavior "byPage" demoForm)
  = (withBehavior "byPage" demoForm, Thrown (invalidBehavior "byPage")).
Proof.
  apply (unknown_behavior_fatal next (withBehavior "byPage" demoForm)).
  - reflexivity.
  - right. apply demoForm_allValid.
  - unfold knownBehavior. cbn. intros [?|[?|[?|?]]]; discriminate.
  - discriminate.
Defined.

(** C9 as stated fails for [submit]: with the unknown behavior byPage,
    navigation enabled and every input valid, [handleMove submit]
    completes a move to the second card instead of throwing. *)
Lemma unknown_behavior_submit_moves :
  ¬ knownBehavior (behavior (withBehavior "byPage" demoForm))
  ∧ navigationEnabled (withBehavior "byPage" demoForm) = true
  ∧ allValid (withBehavior "byPage" demoForm)
  ∧ ∃ s', handleMove submit (withBehavior "byPage" demoForm) = (s', Ok tt)
          ∧ currentPosition (cardManager s') = Some 1
          ∧ ∀ e, handleMove submit (withBehavior "byPage" demoForm)
                 ≠ (withBehavior "byPage" demoForm, Thrown e).
Proof.
  split; [|split; [reflexivity|split; [apply demoForm_allValid|]]].
  - unfold knownBehavior. cbn. intros [?|[?|[?|?]]]; discriminate.
  - eexists. split; [vm_compute; reflexivity|].
    split; [reflexivity|]. intros e. vm_compute. discriminate.
Qed.

(** ** C8, C10: next or submit *)

Lemma find_filter_existsb {A} (p q : A → bool) (l : list A) :
  match List.find p (List.filter q l) with
  | Some _ => true
  | None => false
  end = existsb (λ x, q x && p x) l.
Proof.
  induction l as [|x l IH]; [done|]. cbn.
  destruct (q x); cbn; [|done]. by destruct (p x).
Qed.

Lemma determineNextOrSubmit_reachable buttons :
  determineNextOrSubmit buttons
  = if existsb (reachable next) buttons then next
    else if existsb (reachable submit) buttons then submit
    else next.
Proof.
  unfold determineNextOrSubmit, button_getActive, reachable.
  rewrite <- !find_filter_existsb.
  by repeat destruct (List.find _ _).
Qed.

(** C8: [determineNextOrSubmit] answers next when some next button is
    active and visible; otherwise submit when some submit button is
    active and visible; otherwise next.  A submit button that is not
    active never overrides an active next button. *)
Theorem determineNextOrSubmit_spec buttons :
  determineNextOrSubmit buttons
  = (if existsb (reachable next) buttons then next
     else if existsb (reachable submit) buttons then submit
     else next)
  ∧ ∀ nextButton, nextButton ∈ buttons →
      reachable next nextButton = true →
      determineNextOrSubmit buttons = next.
Proof.
  split; [apply determineNextOrSubmit_reachable|].
  intros b Hin Hb. rewrite determineNextOrSubmit_reachable.
  assert (existsb (reachable next) buttons = true) as ->; [|done].
  apply existsb_exists. exists b. split; [by apply list_elem_of_In | done].
Qed.

Lemma existsb_sameControl t bs bs' :
  Forall2 sameControl bs bs' →
  existsb (reachable t) bs = existsb (reachable t) bs'.
Proof.
  induction 1 as [|b b' l l' (Ha & Hv & Ht) _ IH]; [done|].
  cbn. rewrite IH. unfold reachable. by rewrite Ha, Hv, Ht.
Qed.

Lemma enterKeyHandler_acts event activeElement s :
  actsOn event activeElement →
  enterKeyHandler event activeElement s
  = (record DefaultPrevented ;;
     if bool_decide (determineNextOrSubmit (buttonStore s) = next)
     then emitNavigationRequest next
     else emitSubmitRequested) s.
Proof.
  intros (Hk & Hs & e & -> & Hin & Htag). unfold enterKeyHandler.
  rewrite Hk, Hs. eval_decide. cbn [negb orb from_option].
  rewrite (bool_decide_eq_false_2 (tagName e = "BUTTON")) by done.
  assert (negb (insideForm e) && negb (isBody e) = false) as ->
    by (destruct Hin as [-> | ->]; [done | apply andb_false_r]).
  cbn [orb]. rewrite !bind_run. cbn [record modify].
  by rewrite !bind_run, gets_run.
Qed.

(** C10: the answer of [determineNextOrSubmit] is the same for two
    button stores that agree, button by button, on [active], [visible]
    and [type], whatever the [disabled] flags; it does not read the
    inputs.  So an Enter key press that the handler acts on, with the
    answer next, emits the next navigation request whatever the validity
    of the inputs, and when some active and included input is invalid
    the request is followed by the denied event and nothing else
    changes. *)
Theorem enter_ignores_validity :
  (∀ bs bs', Forall2 sameControl bs bs' →
     determineNextOrSubmit bs = determineNextOrSubmit bs')
  ∧ (∀ event activeElement s,
       actsOn event activeElement →
       determineNextOrSubmit (buttonStore s) = next →
       enterKeyHandler event activeElement s
       = (record DefaultPrevented ;; emitNavigationRequest next) s
       ∧ (navigationEnabled s = true → someInvalid s →
          enterKeyHandler event activeElement s
          = (withTrace (trace s ++ [DefaultPrevented;
                                    Emitted (NavigationRequest next);
                                    Emitted (NavigationDenied invalid)]) s,
             Ok tt))).
Proof.
  split.
  - intros bs bs' H. rewrite !determineNextOrSubmit_reachable.
    by rewrite !(existsb_sameControl _ _ _ H).
  - intros event activeElement s Hact Hn.
    rewrite enterKeyHandler_acts by done. rewrite Hn. eval_decide.
    cbv iota. split; [done|]. intros Hen Hinv.
    unfold emitNavigationRequest, record. mrun.
    rewrite handleMove_denied; [| done | done |].
    + unfold denied. destruct s. cbn. by rewrite <- !app_assoc.
    + destruct Hinv as (i & ? & ?). exists i. by destruct s.
Qed.

Lemma enter_ignores_validity_witness :
  enterKeyHandler enterKey focusedInput demoInvalid
  = (withTrace [DefaultPrevented; Emitted (NavigationRequest next);
                Emitted (NavigationDenied invalid)] demoInvalid, Ok tt).
Proof.
  apply (proj2 enter_ignores_validity enterKey focusedInput demoInvalid).
  - split; [reflexivity|]. split; [reflexivity|].
    eexists. split; [reflexivity|]. split; [by left | discriminate].
  - reflexivity.
  - reflexivity.
  - apply demoInvalid_someInvalid.
Defined.

Lemma determineNextOrSubmit_witness :
  determineNextOrSubmit (buttonStore demoForm) = next.
Proof.
  eapply (proj2 (determineNextOrSubmit_spec (buttonStore demoForm))).
  - apply list_elem_of_here.
  - reflexivity.
Defined.

(** ** Flags item by item *)

Lemma noneBefore_0 c items : noneBefore c items 0 = true.
Proof. reflexivity. Qed.

Lemma noneBefore_S c x items i :
  noneBefore c (x :: items) (S i) = negb (c x) && noneBefore c items i.
Proof. reflexivity. Qed.

Lemma markChildren_lookup c b items i x' :
  markChildren c b items !! i = Some x' →
  ∃ x, items !! i = Some x ∧ clearItem x' = clearItem x
       ∧ active x' = active x || c x
       ∧ current x' = current x || (b && c x && noneBefore c items i).
Proof.
  revert b i. induction items as [|y l IH]; intros b i; [done|].
  cbn [markChildren]. destruct i as [|i].
  - destruct (c y) eqn:Hy; intros [= <-]; exists y;
      (split; [done|]); (split; [by destruct b|]);
      destruct b, (active y) eqn:Ha, (current y) eqn:Hc; cbn;
      rewrite ?Ha, ?Hc, ?Hy; done.
  - destruct (c y) eqn:Hy; cbn [lookup list_lookup]; intros H;
      apply IH in H as (x & Hx & Hc & Ha & Hcur); exists x;
      rewrite noneBefore_S, Hy; cbn [negb andb];
      repeat split; try done;
      rewrite Hcur, ?andb_false_r, ?andb_true_r; done.
Qed.

Lemma lookup_clear items i x :
  clearActiveAndCurrent items !! i = Some x →
  ∃ y, items !! i = Some y ∧ x = clearItem y.
Proof.
  unfold clearActiveAndCurrent. rewrite list_lookup_fmap.
  destruct (items !! i) as [y|]; [|done]. intros [= <-]. eauto.
Qed.

Lemma resolvesTo_skeleton parents parentType parentId x y :
  clearItem x = clearItem y →
  resolvesTo parents parentType parentId x
  = resolvesTo parents parentType parentId y.
Proof.
  intros H. rewrite <- (resolvesTo_clearItem _ _ _ x), H.
  apply resolvesTo_clearItem.
Qed.

Lemma noneBefore_skeleton c items items' i :
  (∀ x y, clearItem x = clearItem y → c x = c y) →
  clearActiveAndCurrent items = clearActiveAndCurrent items' →
  noneBefore c items i = noneBefore c items' i.
Proof.
  intros Hc. unfold clearActiveAndCurrent, noneBefore.
  revert items' i. induction items as [|x l IH]; intros [|y l'] i H;
    try done.
  destruct i as [|i]; [done|]. rewrite !fmap_cons in H.
  assert (clearItem x = clearItem y ∧ clearItem <$> l = clearItem <$> l')
    as [Hxy Hl] by (split; congruence).
  cbn. by rewrite (Hc x y), (IH l' i).
Qed.

Lemma selected_lookup sel items items' :
  selected sel (clearActiveAndCurrent items) = Some items' →
  ∃ p, locate sel items = Some p ∧ onlyAt p items'.
Proof.
  intros (p & Hp & ->)%selected_alter.
  assert (locate sel items = Some p) as Hp'.
  { rewrite <- Hp. unfold clearActiveAndCurrent.
    destruct sel as [i|z]; cbn [locate]; [|by rewrite length_fmap].
    rewrite list_find_fmap.
    by destruct (list_find _ items) as [[]|]. }
  exists p. split; [done|].
  assert (p < length items) as Hlt.
  { destruct sel as [i|z]; cbn [locate] in Hp'.
    - destruct (list_find _ items) as [[q y]|] eqn:E; [|done].
      injection Hp' as <-. apply list_find_Some in E as [E _].
      by eapply lookup_lt_Some.
    - destruct (decide _); [|done]. destruct (decide _); [|done].
      by injection Hp' as <-. }
  split; [by unfold clearActiveAndCurrent;
                rewrite length_alter, length_fmap|].
  intros i x. rewrite list_lookup_alter. intros H.
  destruct (decide (p = i)) as [->|Hne].
  - rewrite bool_decide_eq_true_2 by done.
    destruct (clearActiveAndCurrent items !! i); [|done].
    by injection H as <-.
  - rewrite bool_decide_eq_false_2 by done.
    apply lookup_clear in H as (y & _ & ->). done.
Qed.

Lemma locate_ById items p e :
  NoDup (itemId <$> items) → items !! p = Some e →
  locate (ById (itemId e)) items = Some p.
Proof.
  intros Hnd He. cbn [locate].
  destruct (list_find (λ it, itemId it = itemId e) items) as [[q y]|] eqn:E.
  - apply list_find_Some in E as (Hq & Hy & _). cbn. f_equal.
    eapply NoDup_lookup; [exact Hnd| |];
      rewrite list_lookup_fmap; [by rewrite Hq | by rewrite He; cbn; f_equal].
  - apply list_find_None in E. rewrite Forall_forall in E.
    exfalso. eapply E; [|done]. by eapply list_elem_of_lookup_2.
Qed.

Lemma synced_onlyAt z items items' :
  (0 ≤ z)%Z → synced (Some z) items = Some items' →
  onlyAt (Z.to_nat z) items'.
Proof.
  intros Hz. unfold synced. rewrite decide_True by done.
  intros (p & Hp & Ho)%selected_lookup. cbn [locate] in Hp.
  rewrite decide_True in Hp by done. destruct (decide _); [|done].
  by injection Hp as <-.
Qed.

(** ** C3, C6: the resolved level, its descendants and its ancestors *)

Lemma allClear_clear items : allClear (clearActiveAndCurrent items).
Proof.
  intros x Hx. unfold clearActiveAndCurrent in Hx.
  apply list_elem_of_fmap in Hx as (y & -> & _). done.
Qed.

Lemma getActive_clear items : getActive (clearActiveAndCurrent items) = [].
Proof.
  unfold getActive, getByFilter, clearActiveAndCurrent.
  by induction items as [|x l IH].
Qed.

Lemma resolver_moved level d s s' r p e :
  wellTyped s → level ≠ EInput →
  targetPosition level d s = Some p → manager level s !! p = Some e →
  resolverOf level d s = (s', Ok r) →
  r = Some level ∧ type e = level
  ∧ ∃ s3, s' = batched s3 ∧ sameFrame s s3
          ∧ ∀ t, levelAfter level e s s3 t.
Proof.
  intros Hw Hl Hp He H.
  pose proof (wellTyped_lookup _ _ _ _ Hw He) as Ht.
  destruct (resolver_Ok _ _ _ _ _ _ _ Ht Hl Hp He H) as (-> & Hs3).
  by repeat split.
Qed.

(** C3 fails for the field level: [byField] never selects its target.
    Whenever the field store has a target position and [byField]
    completes, the move is reported as resolved at the field level, yet
    no field and no input is active or current afterwards; the target
    field is neither. *)
Theorem byField_leaves_target_inactive d s s' r p :
  wellTyped s → targetPosition EField d s = Some p →
  byField d s = (s', Ok r) →
  r = Some EField
  ∧ allClear (fieldManager s') ∧ allClear (inputManager s')
  ∧ ∃ target, fieldManager s' !! p = Some target
              ∧ active target = false ∧ current target = false.
Proof.
  intros Hw Hp H.
  destruct (resolver_found EField _ _ _ _ _ ltac:(done) Hp H) as [e He].
  destruct (resolver_moved EField _ _ _ _ _ _ Hw ltac:(done) Hp He H)
    as (-> & _ & s3 & -> & _ & Hl).
  pose proof (Hl EField) as Hf. pose proof (Hl EInput) as Hi.
  unfold levelAfter in Hf, Hi. cbn in Hf. injection Hf as Hf.
  change (fieldManager (batched s3)) with (fieldManager s3).
  change (inputManager (batched s3)) with (inputManager s3).
  rewrite <- Hf in *. rewrite getActive_clear in Hi. cbn in Hi. rewrite Hi.
  split; [done|]. split; [apply allClear_clear|].
  split; [apply allClear_clear|].
  exists (clearItem e). split; [|done].
  cbn [manager] in He. unfold clearActiveAndCurrent.
  by rewrite list_lookup_fmap, He.
Qed.

Lemma isAncestor_syncs a level :
  isAncestor a level = true →
  syncs level a = true ∧ cascades level a = false ∧ a ≠ level.
Proof. by destruct a, level. Qed.

Lemma resolved_level_selected level d s s' r p e :
  wellTyped s → level ≠ EInput → level ≠ EField →
  NoDup (itemId <$> manager level s) →
  targetPosition level d s = Some p → manager level s !! p = Some e →
  resolverOf level d s = (s', Ok r) →
  onlyAt p (manager level s').
Proof.
  intros Hw Hl Hf Hnd Hp He H.
  destruct (resolver_moved _ _ _ _ _ _ _ Hw Hl Hp He H)
    as (-> & Ht & s3 & -> & _ & Hlv).
  rewrite manager_batched.
  specialize (Hlv level). unfold levelAfter in Hlv.
  assert (selected (ById (itemId e))
            (clearActiveAndCurrent (manager level s))
          = Some (manager level s3)) as Hsel.
  { destruct level; try done; cbn [cascades] in Hlv;
      revert Hlv; eval_decide; by cbv iota. }
  apply selected_lookup in Hsel as (q & Hq & Ho).
  by rewrite (locate_ById _ p e Hnd He) in Hq; injection Hq as <-.
Qed.

(** C3 at the group, set and card levels: the resolved item ends active
    and current, alone at its level, and at every level below it that
    the cascade reaches an item is active exactly when its stored
    hierarchy resolves to the resolved item, and current exactly when it
    is the first such item in store order. *)
Lemma resolved_level_and_descendants level d s s' r p e :
  wellTyped s → level ≠ EInput → level ≠ EField →
  NoDup (itemId <$> manager level s) →
  targetPosition level d s = Some p → manager level s !! p = Some e →
  resolverOf level d s = (s', Ok r) →
  onlyAt p (manager level s')
  ∧ ∀ t, cascades level t = true →
      ∀ i x', manager t s' !! i = Some x' →
        ∃ x, manager t s !! i = Some x ∧ clearItem x' = clearItem x
             ∧ active x' = childOf s level (itemId e) x
             ∧ current x'
               = childOf s level (itemId e) x
                 && noneBefore (childOf s level (itemId e)) (manager t s) i.
Proof.
  intros Hw Hl Hf Hnd Hp He H.
  split; [by eapply resolved_level_selected|].
  destruct (resolver_moved _ _ _ _ _ _ _ Hw Hl Hp He H)
    as (-> & Ht & s3 & -> & _ & Hlv).
  intros t Hc i x'. rewrite manager_batched.
  specialize (Hlv t). unfold levelAfter in Hlv.
  assert (manager t s3
          = setActiveByParent (manager level s) (itemId e) level true
              (clearActiveAndCurrent (manager t s))) as ->.
  { destruct t; try (by destruct level); by rewrite Hc in Hlv. }
  intros (x0 & Hx0 & Hsk & Ha & Hcur)%markChildren_lookup.
  apply lookup_clear in Hx0 as (x & Hx & ->).
  exists x. split; [done|]. split; [done|].
  unfold childOf. rewrite Ha, Hcur.
  rewrite (noneBefore_skeleton _ _ (manager t s));
    [ done | intros ? ?; apply resolvesTo_skeleton | apply clear_idemp ].
Qed.

(** C6, as the code has it: after a resolution at [level] on the target
    [e], every ancestor level whose stored index in [e] is present and
    not negative holds exactly the item at that index active and
    current; an ancestor level whose stored index is null or negative is
    left as it was, not cleared.  The resolved level itself (other than
    the field level) holds the target active and current whatever the
    hierarchy stored in it says: a group is not synced to a group, a set
    not to a set, and a card has no upward sync at all. *)
Theorem upward_sync level d s s' r p e :
  wellTyped s → level ≠ EInput →
  targetPosition level d s = Some p → manager level s !! p = Some e →
  resolverOf level d s = (s', Ok r) →
  (∀ a, isAncestor a level = true →
     match parentIndex a (parentHierarchy e) with
     | Some z =>
         if decide (0 ≤ z)%Z then onlyAt (Z.to_nat z) (manager a s')
         else manager a s' = manager a s
     | None => manager a s' = manager a s
     end)
  ∧ (level ≠ EField → NoDup (itemId <$> manager level s) →
     onlyAt p (manager level s')).
Proof.
  intros Hw Hl Hp He H.
  destruct (resolver_moved _ _ _ _ _ _ _ Hw Hl Hp He H)
    as (-> & Ht & s3 & -> & _ & Hlv).
  split.
  - intros a Ha. apply isAncestor_syncs in Ha as (Hs & Hc & Hne).
    rewrite manager_batched. specialize (Hlv a). unfold levelAfter in Hlv.
    assert (syncedLevel e a (manager a s) = Some (manager a s3)) as Hsy.
    { destruct a; try done; rewrite Hc in Hlv;
        by rewrite bool_decide_eq_false_2 in Hlv. }
    unfold syncedLevel in Hsy. rewrite Ht, Hs in Hsy.
    destruct (parentIndex a (parentHierarchy e)) as [z|];
      [|by injection Hsy].
    destruct (decide (0 ≤ z)%Z) as [Hz|Hz].
    + by eapply synced_onlyAt.
    + unfold synced in Hsy. rewrite decide_False in Hsy by done.
      by injection Hsy.
  - intros Hf Hnd. by eapply resolved_level_selected.
Qed.

(** ** C7: the inputs after a move *)

Lemma existsb_skeleton fields actives x y :
  clearItem x = clearItem y →
  existsb (λ f, resolvesTo fields EField (itemId f) x) actives
  = existsb (λ f, resolvesTo fields EField (itemId f) y) actives.
Proof.
  intros H. induction actives as [|f l IH]; [done|]. cbn.
  by rewrite IH, (resolvesTo_skeleton _ _ _ x y).
Qed.

Lemma activateInputsFrom_lookup index fields actives inputs i x' :
  activateInputsFrom index fields actives inputs !! i = Some x' →
  ∃ x, inputs !! i = Some x ∧ clearItem x' = clearItem x
       ∧ active x'
         = active x
           || existsb (λ f, resolvesTo fields EField (itemId f) x) actives
       ∧ current x'
         = current x
           || (bool_decide (index = 0)
               && match actives with
                  | f :: _ =>
                      resolvesTo fields EField (itemId f) x
                      && noneBefore (resolvesTo fields EField (itemId f))
                           inputs i
                  | [] => false
                  end).
Proof.
  revert index inputs. induction actives as [|f rest IH];
    intros index inputs; cbn [activateInputsFrom].
  - intros H. exists x'. by rewrite andb_false_r, !orb_false_r.
  - intros H. apply IH in H as (x1 & H1 & Hc1 & Ha1 & Hcur1).
    apply markChildren_lookup in H1 as (x & Hx & Hc & Ha & Hcur).
    exists x. split; [done|]. split; [congruence|].
    rewrite (bool_decide_eq_false_2 (S index = 0)) in Hcur1 by done.
    cbn [andb] in Hcur1. rewrite orb_false_r in Hcur1.
    split.
    + rewrite Ha1, Ha. cbn [existsb].
      by rewrite (existsb_skeleton _ _ x1 x), orb_assoc.
    + by rewrite Hcur1, Hcur, andb_assoc.
Qed.

Lemma noneBefore_spec c items i :
  noneBefore c items i = true
  ↔ ∀ j y, j < i → items !! j = Some y → c y = false.
Proof.
  unfold noneBefore. rewrite forallb_forall. split.
  - intros H j y Hj Hy. apply negb_true_iff, H, list_elem_of_In.
    apply list_elem_of_lookup. exists j. by rewrite lookup_take_lt.
  - intros H y Hy. apply list_elem_of_In, list_elem_of_lookup in Hy
      as [j Hj]. apply lookup_take_Some in Hj as [Hj Hlt].
    apply negb_true_iff. by eapply H.
Qed.

Lemma parentField_skeleton fields x y :
  clearItem x = clearItem y → parentField fields x = parentField fields y.
Proof.
  intros H. unfold parentField.
  change (parentHierarchy x) with (parentHierarchy (clearItem x)).
  by rewrite H.
Qed.

Lemma resolvesTo_parentField fields f x :
  NoDup (itemId <$> fields) → f ∈ fields →
  resolvesTo fields EField (itemId f) x = true
  ↔ parentField fields x = Some f.
Proof.
  intros Hnd Hf. unfold resolvesTo, parentField. cbn [parentIndex].
  destruct (fieldIndex (parentHierarchy x)) as [z|]; [|done].
  destruct (decide (0 ≤ z)%Z); [|done].
  destruct (fields !! Z.to_nat z) as [g|] eqn:Hg; [|done].
  rewrite bool_decide_eq_true. split; [|by intros [= ->]].
  intros Hid. f_equal.
  apply list_elem_of_lookup in Hf as [j Hj].
  assert (Z.to_nat z = j) as <-; [|congruence].
  eapply NoDup_lookup; [exact Hnd| |]; rewrite list_lookup_fmap.
  - by rewrite Hg.
  - rewrite Hj. cbn. by f_equal.
Qed.

Lemma getActive_elem f fields :
  f ∈ getActive fields ↔ f ∈ fields ∧ active f = true.
Proof.
  unfold getActive, getByFilter.
  by rewrite list_elem_of_In, filter_In, <- list_elem_of_In.
Qed.

Lemma levelAfter_clear level e s s3 t :
  levelAfter level e s s3 t →
  clearActiveAndCurrent (manager t s3) = clearActiveAndCurrent (manager t s).
Proof.
  unfold levelAfter.
  destruct t; cbn [manager];
    [ | | | | intros ->; rewrite clear_activateInputsFrom;
              apply clear_idemp ].
  all: destruct (cascades level _);
         [ intros ->; unfold setActiveByParent;
           rewrite clear_markChildren; apply clear_idemp |].
  all: destruct (bool_decide (_ = level));
         [ destruct (bool_decide (level = EField));
           [ intros [= <-]; apply clear_idemp
           | intros H%clear_selected; by rewrite clear_idemp in H ]
         | unfold syncedLevel; destruct (syncs _ _);
           [ apply clear_synced | by intros [= <-] ] ].
Qed.

Lemma inputs_after_loop fields inputs0 inputs' :
  NoDup (itemId <$> fields) →
  inputs' = activateInputsFrom 0 fields (getActive fields)
              (clearActiveAndCurrent inputs0) →
  (∀ input, input ∈ inputs' →
     active input = true
     ↔ ∃ f, parentField fields input = Some f ∧ active f = true)
  ∧ (∀ i input, inputs' !! i = Some input →
       current input = true
       ↔ ∃ f, head (getActive fields) = Some f
              ∧ parentField fields input = Some f
              ∧ ∀ j input', j < i → inputs' !! j = Some input' →
                            parentField fields input' ≠ Some f).
Proof.
  intros Hnd Heq.
  assert (clearActiveAndCurrent inputs'
          = clearActiveAndCurrent (clearActiveAndCurrent inputs0)) as Hsk
    by (rewrite Heq; apply clear_activateInputsFrom).
  split.
  - intros input [i Hi]%list_elem_of_lookup. rewrite Heq in Hi.
    apply activateInputsFrom_lookup in Hi as (x & Hx & Hc & Ha & _).
    apply lookup_clear in Hx as (y & _ & ->).
    rewrite Ha. cbn [active clearItem withCurrent withActive orb].
    rewrite <- (existsb_skeleton _ _ input) by done.
    rewrite existsb_exists. split.
    + intros (f & Hf%list_elem_of_In%getActive_elem & Hr).
      destruct Hf as [Hf Hact]. exists f. split; [|done].
      by apply resolvesTo_parentField.
    + intros (f & Hp & Hact).
      assert (f ∈ fields) as Hf.
      { unfold parentField in Hp.
        destruct (fieldIndex _); [|done]. destruct (decide _); [|done].
        by eapply list_elem_of_lookup_2. }
      exists f. split; [by apply list_elem_of_In, getActive_elem|].
      by apply resolvesTo_parentField.
  - intros i input Hi.
    pose proof Hi as Hi'. rewrite Heq in Hi'.
    apply activateInputsFrom_lookup in Hi' as (x & Hx & Hc & _ & Hcur).
    apply lookup_clear in Hx as (y & _ & ->).
    rewrite Hcur. cbn [current clearItem withCurrent withActive orb].
    rewrite bool_decide_eq_true_2 by done. cbn [andb].
    clear Hcur Heq.
    destruct (getActive fields) as [|f rest] eqn:Hact; cbn [head].
    { split; [done|]. by intros (f & ? & _). }
    assert (f ∈ fields) as Hf.
    { eapply proj1, getActive_elem. rewrite Hact. apply list_elem_of_here. }
    rewrite andb_true_iff.
    rewrite <- (resolvesTo_skeleton _ _ _ input) by done.
    rewrite (resolvesTo_parentField _ _ _ Hnd Hf).
    rewrite (noneBefore_skeleton _ _ inputs');
      [ | intros ? ?; apply resolvesTo_skeleton | by symmetry ].
    rewrite noneBefore_spec. split.
    + intros [Hp Hnb]. exists f. split; [done|]. split; [done|].
      intros j z Hj Hz Hpz. apply (resolvesTo_parentField _ _ _ Hnd Hf) in Hpz.
      by rewrite (Hnb j z Hj Hz) in Hpz.
    + intros (g & [= <-] & Hp & Hnb). split; [done|].
      intros j z Hj Hz. apply not_true_is_false. intros Hr.
      apply (resolvesTo_parentField _ _ _ Hnd Hf) in Hr. by eapply Hnb.
Qed.

(** C7, as the code has it: after a move that resolved at some level,
    an input is active exactly when the field it hangs under is active,
    and an input is current exactly when it is the first input of the
    first active field; the first inputs of the other active fields are
    active but not current.  (Field ids are unique.) *)
Theorem inputs_mirror_fields level d s s' resolved :
  wellTyped s → NoDup (itemId <$> fieldManager s) → level ≠ EInput →
  resolverOf level d s = (s', Ok (Some resolved)) →
  (∀ input, input ∈ inputManager s' →
     active input = true
     ↔ ∃ f, parentField (fieldManager s') input = Some f ∧ active f = true)
  ∧ (∀ i input, inputManager s' !! i = Some input →
       current input = true
       ↔ ∃ f, head (getActive (fieldManager s')) = Some f
              ∧ parentField (fieldManager s') input = Some f
              ∧ ∀ j input', j < i → inputManager s' !! j = Some input' →
                            parentField (fieldManager s') input' ≠ Some f).
Proof.
  intros Hw Hnd Hl H.
  destruct (resolver_outcome _ _ _ _ _ Hw Hl H)
    as [[? _]|(L & p & e & _ & Hm)]; [done|].
  destruct Hm as (_ & _ & _ & _ & s3 & -> & _ & Hlv).
  change (inputManager (batched s3)) with (inputManager s3).
  change (fieldManager (batched s3)) with (fieldManager s3).
  apply (inputs_after_loop _ (inputManager s)); [|apply (Hlv EInput)].
  rewrite <- (clear_ids (fieldManager s) (fieldManager s3)); [done|].
  symmetry. apply (levelAfter_clear _ _ _ _ EField (Hlv EField)).
Qed.

(** ** The example forms *)

Lemma demoForm_wellTyped : wellTyped demoForm.
Proof. by intros []. Qed.

Lemma demoForm_exclusive : Exclusivity demoForm.
Proof. intros []; split; vm_compute; first [lia | reflexivity]. Qed.

Lemma looseFieldForm_wellTyped : wellTyped looseFieldForm.
Proof. by intros []. Qed.

Lemma demoAtEnd_allValid : allValid demoAtEnd.
Proof. apply demoForm_allValid. Qed.

Lemma boundary_fallthrough_witness :
  byCard next demoAtEnd = (demoAtEnd, Ok None)
  ∧ handleMove next demoAtEnd = (demoAtEnd, Ok tt).
Proof.
  destruct (boundary_fallthrough next demoAtEnd) as (_ & _ & _ & Hc & Hm).
  split; [by apply Hc|].
  apply Hm; [reflexivity | reflexivity | right; apply demoAtEnd_allValid |].
  by intros [].
Defined.

Lemma exclusivity_preserved_witness :
  ∃ s', handleMove next demoForm = (s', Ok tt) ∧ Exclusivity s'.
Proof.
  eexists. split; [vm_compute; reflexivity|].
  eapply (proj1 exclusivity_preserved next demoForm).
  - apply demoForm_wellTyped.
  - apply demoForm_exclusive.
  - vm_compute. reflexivity.
Defined.

Lemma byField_leaves_target_inactive_witness :
  ∃ s', byField next demoForm = (s', Ok (Some EField))
        ∧ allClear (fieldManager s') ∧ allClear (inputManager s')
        ∧ ∃ target, fieldManager s' !! 1 = Some target
                    ∧ active target = false ∧ current target = false.
Proof.
  eexists. split; [vm_compute; reflexivity|].
  eapply (byField_leaves_target_inactive next demoForm _ (Some EField) 1).
  - apply demoForm_wellTyped.
  - reflexivity.
  - vm_compute. reflexivity.
Defined.

(** The failing input of C3 through [handleMove]: in field mode, on the
    first field, next reaches the second field; afterwards every field,
    the second included, is inactive and not current, while its group,
    set and card are selected. *)
Example handleMove_next_byField :
  ∃ s', handleMove next (withBehavior "byField" demoForm) = (s', Ok tt)
        ∧ active <$> fieldManager s' = [false; false; false]
        ∧ current <$> fieldManager s' = [false; false; false]
        ∧ current <$> groupManager s' = [false; true]
        ∧ current <$> cardManager s' = [false; true].
Proof. eexists. split; [vm_compute; reflexivity|]. by repeat split. Qed.

Lemma upward_sync_witness :
  ∃ s', byField next demoForm = (s', Ok (Some EField))
        ∧ onlyAt 1 (groupManager s').
Proof.
  eexists. split; [vm_compute; reflexivity|].
  eapply (proj1 (upward_sync EField next demoForm _ (Some EField) 1 _
                   demoForm_wellTyped ltac:(done) eq_refl eq_refl _)
            EGroup eq_refl).
  Unshelve. vm_compute. reflexivity.
Defined.

(** C6 as stated fails when the stored index is absent: the second field
    of [looseFieldForm] has no group; after [byField next] moves to it,
    the group level, an ancestor level of the field type, has not been
    cleared: its first group is still active and current. *)
Lemma upward_sync_skips_absent_index :
  ∃ e s',
    targetPosition EField next looseFieldForm = Some 1
    ∧ fieldManager looseFieldForm !! 1 = Some e
    ∧ isAncestor EGroup (type e) = true
    ∧ groupIndex (parentHierarchy e) = None
    ∧ byField next looseFieldForm = (s', Ok (Some EField))
    ∧ ¬ allClear (groupManager s')
    ∧ ∃ g, groupManager s' !! 0 = Some g
           ∧ active g = true ∧ current g = true.
Proof.
  eexists _, _. split; [reflexivity|]. split; [reflexivity|].
  split; [reflexivity|]. split; [reflexivity|].
  split; [vm_compute; reflexivity|]. split.
  - intros H. specialize (H _ (list_elem_of_here _ _)). by destruct H.
  - eexists. by repeat split.
Qed.

Lemma demoForm_fieldIds : NoDup (itemId <$> fieldManager demoForm).
Proof. apply (bool_decide_unpack _). by vm_compute. Qed.

Lemma inputs_mirror_fields_witness :
  ∃ s', byCard next demoForm = (s', Ok (Some ECard))
        ∧ ∀ input, input ∈ inputManager s' →
            active input = true
            ↔ ∃ f, parentField (fieldManager s') input = Some f
                   ∧ active f = true.
Proof.
  eexists. split; [vm_compute; reflexivity|].
  eapply (proj1 (inputs_mirror_fields ECard next demoForm _ ECard
                  demoForm_wellTyped demoForm_fieldIds ltac:(done) _)).
  Unshelve. vm_compute. reflexivity.
Defined.

(** C7 as stated fails for the second active field: after [byCard next]
    on [demoForm] the fields field-1 and field-2 are active; input-2 is
    the first (and only) input of field-2 and is active, but it is not
    current. *)
Lemma second_field_input_not_current :
  ∃ s' f input,
    byCard next demoForm = (s', Ok (Some ECard))
    ∧ fieldManager s' !! 2 = Some f ∧ active f = true
    ∧ inputManager s' !! 2 = Some input
    ∧ parentField (fieldManager s') input = Some f
    ∧ active input = true
    ∧ (∀ j input', j < 2 → inputManager s' !! j = Some input' →
                   parentField (fieldManager s') input' ≠ Some f)
    ∧ current input = false.
Proof.
  eexists _, _, _. split; [vm_compute; reflexivity|].
  split; [reflexivity|]. split; [reflexivity|]. split; [reflexivity|].
  split; [reflexivity|]. split; [reflexivity|]. split; [|reflexivity].
  intros [|[|j]] input' Hj; [| |lia]; intros [= <-]; vm_compute; discriminate.
Qed.

(** * More of the managers *)

(** ** [clearHierarchyData] *)

(** X1: two calls of [clearHierarchyData] in a row clear what the wider
    of the two clears, so a call repeated changes nothing more; a call
    never throws, never writes the trace, the inputs or a level above
    its own. *)
Theorem clearHierarchyData_absorbs a b s :
  (clearHierarchyData a ;; clearHierarchyData b) s
  = clearHierarchyData (wider a b) s
  ∧ (clearHierarchyData a ;; clearHierarchyData a) s
    = clearHierarchyData a s
  ∧ ∃ s', clearHierarchyData a s = (s', Ok tt)
          ∧ trace s' = trace s ∧ inputManager s' = inputManager s
          ∧ ∀ t, reach a < reach t → manager t s' = manager t s.
Proof.
  rewrite !bind_run, !clearHierarchyData_run. split; [|split].
  - unfold wider. destruct a, b; cbn [reach]; destruct (decide _); try lia;
      destruct s; unfold mapManagers; cbn; rewrite ?clear_idemp;
      reflexivity.
  - destruct a, s; unfold mapManagers; cbn; rewrite ?clear_idemp;
      reflexivity.
  - eexists. split; [reflexivity|]. split; [done|]. split; [by destruct a|].
    intros t Ht. rewrite manager_mapManagers.
    destruct a, t; cbn in *; try done; lia.
Qed.

(** ** The Enter key, [showSuccess] and denial *)

Lemma traceGrows_refl s : traceGrows s s.
Proof. exists []. by rewrite app_nil_r. Qed.

Lemma traceGrows_trans s1 s2 s3 :
  traceGrows s1 s2 → traceGrows s2 s3 → traceGrows s1 s3.
Proof.
  intros [x1 T1] [x2 T2]. exists (x1 ++ x2). by rewrite T2, T1, app_assoc.
Qed.

Lemma traceGrows_manager t items s : traceGrows s (withManager t items s).
Proof. exists []. rewrite app_nil_r. by destruct t. Qed.

Lemma traceGrows_effect e s : traceGrows s (withTrace (trace s ++ [e]) s).
Proof. by exists [e]. Qed.

Lemma traceGrows_handleMove d :
  within traceGrows (λ _, True) (handleMove d).
Proof.
  apply (within_handleMove traceGrows (λ _, True)); try done.
  - apply traceGrows_refl.
  - apply traceGrows_trans.
  - apply traceGrows_manager.
  - intros e s _. apply traceGrows_effect.
Qed.

Lemma traceGrows_record e : within traceGrows (λ _, True) (record e).
Proof.
  apply (within_record traceGrows (λ _, True)); [|done].
  intros e' s _. apply traceGrows_effect.
Qed.

Lemma traceGrows_neq s s' x :
  traceGrows (withTrace (trace s ++ [x]) s) s' → s' ≠ s.
Proof.
  intros [extra T] ->. cbn in T. apply (f_equal length) in T.
  rewrite !length_app in T. cbn in T. lia.
Qed.

(** X2: the Enter handler does nothing at all (no [preventDefault], no
    event, no store touched) unless the key is Enter without shift and
    the focus is inside the form or on the body and not on a button; when
    it acts, the first thing it adds to the trace is the prevented
    default, so acting is never silent. *)
Theorem enterKeyHandler_ignores event activeElement s :
  (¬ actsOn event activeElement →
   enterKeyHandler event activeElement s = (s, Ok tt))
  ∧ (actsOn event activeElement →
     ∀ s' r, enterKeyHandler event activeElement s = (s', r) →
       s' ≠ s ∧ ∃ extra, trace s' = trace s ++ DefaultPrevented :: extra).
Proof.
  split.
  - intros Hn. unfold enterKeyHandler.
    destruct (decide (key event = "Enter")) as [Hk|Hk];
      [|by rewrite (bool_decide_eq_false_2 _ Hk)].
    rewrite (bool_decide_eq_true_2 _ Hk). cbn [negb orb].
    destruct (shiftKey event) eqn:Hs; [done|].
    destruct activeElement as [e|]; [|done]. cbn [from_option].
    destruct (decide (tagName e = "BUTTON")) as [Ht|Ht];
      [by rewrite (bool_decide_eq_true_2 _ Ht), orb_true_r|].
    destruct (insideForm e) eqn:Hi, (isBody e) eqn:Hb; cbn [negb andb orb];
      try done; exfalso; apply Hn; repeat split; try done;
      exists e; repeat split; auto.
  - intros Hact s' r. rewrite enterKeyHandler_acts by done.
    rewrite bind_run. cbn [record modify].
    set (s1 := withTrace (trace s ++ [DefaultPrevented]) s).
    intros H.
    assert (traceGrows s1 s') as Hg.
    { destruct (bool_decide _).
      - unfold emitNavigationRequest in H.
        eapply (within_bind traceGrows (λ _, True) traceGrows_trans);
          [apply traceGrows_record | intros ?; apply traceGrows_handleMove
          | exact H].
      - unfold emitSubmitRequested, handleSubmit in H.
        eapply (within_bind traceGrows (λ _, True) traceGrows_trans);
          [apply traceGrows_record | intros ?; apply traceGrows_record
          | exact H]. }
    split; [by eapply traceGrows_neq|].
    destruct Hg as [extra T]. exists extra. rewrite T. subst s1. cbn.
    by rewrite <- app_assoc.
Qed.

Lemma enterKeyHandler_ignores_witness :
  enterKeyHandler (mkKey "Enter" true) focusedInput demoForm
  = (demoForm, Ok tt).
Proof.
  apply (proj1 (enterKeyHandler_ignores (mkKey "Enter" true) focusedInput
                  demoForm)).
  intros (_ & Hs & _). discriminate.
Defined.

(** X3: when the answer of [determineNextOrSubmit] is submit, an Enter
    press the handler acts on starts the submission: it emits the submit
    request, to which the submit manager answers with the started event,
    and touches no store.  Neither the validity of the inputs nor the
    navigation switch is consulted on this path. *)
Theorem enter_submits_ungated event activeElement s :
  actsOn event activeElement →
  determineNextOrSubmit (buttonStore s) = submit →
  enterKeyHandler event activeElement s
  = (withTrace (trace s ++ [DefaultPrevented; Emitted SubmitRequested;
                            Emitted SubmitStarted]) s, Ok tt).
Proof.
  intros Hact Hs. rewrite enterKeyHandler_acts by done. rewrite Hs.
  unfold emitSubmitRequested, handleSubmit, record. mrun.
  destruct s. cbn. by rewrite <- !app_assoc.
Qed.

Lemma focusedInput_actsOn : actsOn enterKey focusedInput.
Proof.
  split; [reflexivity|]. split; [reflexivity|].
  eexists. split; [reflexivity|]. split; [by left | discriminate].
Qed.

Lemma enter_submits_ungated_witness :
  someInvalid submitOnlyForm ∧ navigationEnabled submitOnlyForm = false
  ∧ enterKeyHandler enterKey focusedInput submitOnlyForm
    = (withTrace [DefaultPrevented; Emitted SubmitRequested;
                  Emitted SubmitStarted] submitOnlyForm, Ok tt).
Proof.
  split; [apply demoInvalid_someInvalid|]. split; [reflexivity|].
  apply (enter_submits_ungated enterKey focusedInput submitOnlyForm).
  - apply focusedInput_actsOn.
  - reflexivity.
Defined.

(** X4: [showSuccess] goes through the same gate as any submit move: with
    navigation enabled and an invalid active and included input it only
    emits the request and the denied event, the form stays on its card;
    with every such input valid it emits the request and runs the card
    resolver towards next. *)
Theorem showSuccess_gated s :
  navigationEnabled s = true →
  (someInvalid s →
   showSuccess s
   = (withTrace (trace s ++ [Emitted (NavigationRequest submit);
                             Emitted (NavigationDenied invalid)]) s, Ok tt))
  ∧ (allValid s →
     showSuccess s
     = (byCard next ;; mret tt)
         (withTrace (trace s ++ [Emitted (NavigationRequest submit)]) s)).
Proof.
  intros Hen. unfold showSuccess, emitNavigationRequest, record.
  rewrite bind_run, modify_run. split.
  - intros Hinv. rewrite handleMove_denied; [| by destruct s | done |].
    + unfold denied. destruct s. cbn. by rewrite <- !app_assoc.
    + destruct Hinv as (i & ? & ?). exists i. by destruct s.
  - intros Hv. rewrite handleMove_allowed; [done | by destruct s | done |].
    intros i Hi. apply Hv. by destruct s.
Qed.

Lemma showSuccess_gated_witness :
  showSuccess demoInvalid
  = (withTrace [Emitted (NavigationRequest submit);
                Emitted (NavigationDenied invalid)] demoInvalid, Ok tt).
Proof.
  apply (proj1 (showSuccess_gated demoInvalid eq_refl)).
  apply demoInvalid_someInvalid.
Defined.

Lemma forallb_false_exists {A} (f : A → bool) (l : list A) :
  forallb f l = false → ∃ x, x ∈ l ∧ f x = false.
Proof.
  induction l as [|x l IH]; [done|]. cbn.
  destruct (f x) eqn:Hx; cbn.
  - intros (y & Hy & Hf)%IH. exists y. split; [by right | done].
  - intros _. exists x. split; [by left | done].
Qed.

Lemma validity_cases s : someInvalid s ∨ allValid s.
Proof.
  destruct (forallb isValid
              (getByFilter (λ input, active input && isIncluded input)
                 (inputManager s))) eqn:E.
  - right. intros i Hi Ha Hinc. rewrite forallb_forall in E. apply E.
    apply filter_In. split; [by apply list_elem_of_In|]. by rewrite Ha, Hinc.
  - left. apply forallb_false_exists in E as (x & Hx & Hv).
    apply list_elem_of_In, filter_In in Hx as [Hx Hf].
    apply andb_true_iff in Hf as [Ha Hi].
    exists x. by rewrite <- list_elem_of_In in Hx.
Qed.

Lemma not_denied_quietly s s' :
  grewQuietly s s' → s' ≠ denied s.
Proof.
  intros (extra & T & Q) ->. unfold denied in T. cbn in T.
  apply app_inv_head in T. by subst extra.
Qed.

Lemma denied_neq s : denied s ≠ s.
Proof.
  intros H. apply (f_equal trace) in H. unfold denied in H. cbn in H.
  apply (f_equal length) in H. rewrite length_app in H. cbn in H. lia.
Qed.

Lemma handleMove_denied_when d s :
  handleMove d s = (denied s, Ok tt)
  ↔ navigationEnabled s = true ∧ d ≠ prev ∧ someInvalid s.
Proof.
  split; [|by intros (? & ? & ?); apply handleMove_denied].
  intros H.
  destruct (navigationEnabled s) eqn:Hen;
    [|rewrite handleMove_disabled in H by done; injection H as H;
      by destruct (denied_neq s)].
  assert (∀ m : M unit, discreet m → m s = (denied s, Ok tt) → False)
    as Hq.
  { intros m Hm Hr. destruct (Hm _ _ _ Hr) as [Hg _].
    by eapply not_denied_quietly. }
  assert (stepModeSwitch (behavior s) d s = (denied s, Ok tt) → False)
    as Hsw.
  { destruct (knownBehavior_dec (behavior s)) as [Hb|Hb].
    - by apply Hq, discreet_stepModeSwitch.
    - by rewrite stepModeSwitch_unknown. }
  destruct (decide (d = prev)) as [->|Hd].
  { rewrite handleMove_prev in H by done. by destruct Hsw. }
  destruct (validity_cases s) as [Hinv|Hv]; [done|].
  rewrite handleMove_allowed in H by done.
  destruct (bool_decide (d = submit)); [|by destruct Hsw].
  exfalso. eapply Hq; [|exact H].
  apply within_bind; [apply grewQuietly_trans | |].
  - apply (discreet_resolver ECard).
  - intros ?. apply within_ret, grewQuietly_refl.
Qed.

(** X5: [handleMove] answers with the denied event, and nothing else,
    exactly when navigation is enabled, the direction is next or submit
    and some active and included input is invalid; an inactive or
    excluded invalid input never blocks a move. *)
Theorem handleMove_denies_iff d s :
  (handleMove d s = (denied s, Ok tt)
   ↔ navigationEnabled s = true ∧ d ≠ prev ∧ someInvalid s)
  ∧ (validateCurrent s = (s, Ok true) ↔ allValid s).
Proof.
  split; [apply handleMove_denied_when|].
  rewrite validateCurrent_run. split.
  - intros [= E] i Hi Ha Hinc. rewrite forallb_forall in E. apply E.
    apply filter_In. split; [by apply list_elem_of_In|]. by rewrite Ha, Hinc.
  - intros Hv. by rewrite forallb_filter_true.
Qed.

Lemma handleMove_denies_iff_witness :
  handleMove next demoInvalid = (denied demoInvalid, Ok tt).
Proof.
  apply (proj2 (proj1 (handleMove_denies_iff next demoInvalid))).
  split; [reflexivity|]. split; [discriminate|].
  apply demoInvalid_someInvalid.
Defined.

(** ** What every run keeps, for relations that only the flag
    operations of the stores respect

    As the section before, but the relation [R] need not hold for an
    arbitrary store update: it is asked of the four operations that
    write a store. *)

Section Flagwise.

Variable R : Form → Form → Prop.
Variable okEffect : Effect → Prop.
Variable okError : FormError → Prop.

Hypothesis R_refl : ∀ s, R s s.
Hypothesis R_trans : ∀ s1 s2 s3, R s1 s2 → R s2 s3 → R s1 s3.
Hypothesis R_effect :
  ∀ e s, okEffect e → R s (withTrace (trace s ++ [e]) s).
Hypothesis R_clear :
  ∀ t s, R s (withManager t (clearActiveAndCurrent (manager t s)) s).
Hypothesis R_byParent :
  ∀ t parents parentId parentType b s,
    R s (withManager t
           (setActiveByParent parents parentId parentType b (manager t s))
           s).
Hypothesis R_setActive :
  ∀ t sel items s,
    setActive sel (manager t s) = Some items → R s (withManager t items s).
Hypothesis R_setCurrent :
  ∀ t sel items s,
    setCurrent sel (manager t s) = Some items → R s (withManager t items s).
Hypothesis ok_rebuilt : ∀ t, okEffect (Rebuilt t).
Hypothesis ok_statesSet : ∀ p, okEffect (StatesSet p).
Hypothesis ok_notFound : ∀ t sel, okError (notFound t sel).
Hypothesis ok_nullTarget : ∀ msg p d, okError (nullTarget msg p d).

Lemma flags_clear t : within R okError (mgr_clearActiveAndCurrent t).
Proof. intros s s' r [= <- <-]. by split. Qed.

Lemma flags_setActiveByParent t parentId parentType b :
  within R okError (mgr_setActiveByParent t parentId parentType b).
Proof. intros s s' r [= <- <-]. by split. Qed.

Lemma flags_setActive t sel : within R okError (mgr_setActive t sel).
Proof.
  intros s s' r. unfold mgr_setActive.
  destruct (setActive sel (manager t s)) eqn:E; intros [= <- <-].
  - split; [by eapply R_setActive | done].
  - split; [done|]. by intros e [= <-].
Qed.

Lemma flags_setCurrent t sel : within R okError (mgr_setCurrent t sel).
Proof.
  intros s s' r. unfold mgr_setCurrent.
  destruct (setCurrent sel (manager t s)) eqn:E; intros [= <- <-].
  - split; [by eapply R_setCurrent | done].
  - split; [done|]. by intros e [= <-].
Qed.

Ltac flags_step :=
  lazymatch goal with
  | |- within _ _ (mgr_clearActiveAndCurrent _) => apply flags_clear
  | |- within _ _ (mgr_setActiveByParent _ _ _ _) =>
      apply flags_setActiveByParent
  | |- within _ _ (mgr_setActive _ _) => apply flags_setActive
  | |- within _ _ (mgr_setCurrent _ _) => apply flags_setCurrent
  | |- within _ _ (mgr_rebuildAll _) =>
      apply (within_record R okEffect okError R_effect), ok_rebuilt
  | |- within _ _ (mgr_calculateStates _) =>
      apply (within_gets R okError R_refl)
  | |- within _ _ (setStates _) =>
      apply (within_record R okEffect okError R_effect), ok_statesSet
  | |- within _ _ (gets _) => apply (within_gets R okError R_refl)
  | |- within _ _ (targetPositionOf _ _) =>
      apply (within_gets R okError R_refl)
  | |- within _ _ (mret _) => apply (within_ret R okError R_refl)
  | |- within _ _ (throw (nullTarget _ _ _)) =>
      apply (within_throw R okError R_refl), ok_nullTarget
  | |- within _ _ (forEach _ _) =>
      apply (within_forEachFrom R okError R_refl R_trans); intros ? ?
  | |- within _ _ (_ ≫= _) =>
      apply (within_bind R okError R_trans); [|intros ?]
  | |- within _ _ (match ?x with _ => _ end) => destruct x
  end.

Lemma flags_clearHierarchyData t : within R okError (clearHierarchyData t).
Proof. unfold clearHierarchyData. repeat flags_step. Qed.

Lemma flags_setChildrenActive e : within R okError (setChildrenActive e).
Proof. unfold setChildrenActive. repeat flags_step. Qed.



Lemma flags_batchStateUpdates : within R okError batchStateUpdates.
Proof. unfold batchStateUpdates. repeat flags_step. Qed.








End Flagwise.

(** ** Navigation writes flags only *)

Lemma sameStructure_refl s : sameStructure s s.
Proof. by repeat split. Qed.

Lemma sameStructure_trans s1 s2 s3 :
  sameStructure s1 s2 → sameStructure s2 s3 → sameStructure s1 s3.
Proof.
  intros ([? ?] & ? & E1) ([? ?] & ? & E2).
  split; [split; congruence|]. split; [congruence|].
  intros t. by rewrite E2, E1.
Qed.

Lemma sameStructure_store t items s :
  clearActiveAndCurrent items = clearActiveAndCurrent (manager t s) →
  sameStructure s (withManager t items s).
Proof.
  intros H. repeat split; try by destruct t.
  intros t'. destruct (decide (t' = t)) as [->|Hne].
  - by rewrite manager_withManager.
  - by rewrite manager_withManager_ne.
Qed.

Lemma sameStructure_effect e s :
  sameStructure s (withTrace (trace s ++ [e]) s).
Proof. by repeat split. Qed.






(** ** One commit, and last *)

Lemma commitsLast_bind {A B} (m : M A) (k : A → M B) :
  within sameTrace (λ _, True) m → (∀ a, commitsLast (k a)) →
  commitsLast (m ≫= k).
Proof.
  intros Hm Hk s s' r. rewrite bind_run.
  destruct (m s) as [s1 [a|e]] eqn:E.
  - intros H. destruct (Hm _ _ _ E) as [T _]. unfold sameTrace in T.
    specialize (Hk a _ _ _ H). by rewrite T in Hk.
  - intros [= <- <-]. by destruct (Hm _ _ _ E).
Qed.

Lemma commitsLast_still {A} (m : M A) :
  within sameTrace (λ _, True) m → commitsLast m.
Proof.
  intros Hm s s' r H. destruct (Hm _ _ _ H) as [T _].
  destruct r; [by left | done].
Qed.

Lemma commitsLast_batch {A} (a : A) :
  commitsLast (batchStateUpdates ;; mret a).
Proof.
  intros s s' r. rewrite bind_run, batchStateUpdates_run, mret_run.
  intros [= <- <-]. right. by destruct s.
Qed.

Lemma sameTrace_manager t items s : sameTrace s (withManager t items s).
Proof. by destruct t. Qed.

Lemma sameTrace_trans s1 s2 s3 :
  sameTrace s1 s2 → sameTrace s2 s3 → sameTrace s1 s3.
Proof. unfold sameTrace. congruence. Qed.

Ltac sameTrace_solve :=
  first
    [ apply (within_clearHierarchyData sameTrace (λ _, True))
    | apply (within_setChildrenActive sameTrace (λ _, True))
    | apply (within_updateHierarchyData sameTrace (λ _, True))
    | apply (within_setActive sameTrace (λ _, True))
    | apply (within_setCurrent sameTrace (λ _, True))
    | apply (within_gets sameTrace (λ _, True)) ];
  first [ done | apply sameTrace_trans | apply sameTrace_manager ].

Ltac commitsLast_step :=
  lazymatch goal with
  | |- commitsLast (batchStateUpdates ≫= _) => apply commitsLast_batch
  | |- commitsLast (mret _) =>
      apply commitsLast_still, (within_ret sameTrace (λ _, True)); done
  | |- commitsLast (throw _) =>
      apply commitsLast_still, (within_throw sameTrace (λ _, True)); done
  | |- commitsLast (_ ≫= _) =>
      apply commitsLast_bind; [sameTrace_solve | intros ?]
  | |- commitsLast (match ?x with _ => _ end) => destruct x
  end.

Lemma commitsLast_byCard d : commitsLast (byCard d).
Proof. unfold byCard. repeat commitsLast_step. Qed.

Lemma commitsLast_bySet d : commitsLast (bySet d).
Proof.
  unfold bySet. repeat first [apply commitsLast_byCard | commitsLast_step].
Qed.

Lemma commitsLast_byGroup d : commitsLast (byGroup d).
Proof.
  unfold byGroup. repeat first [apply commitsLast_bySet | commitsLast_step].
Qed.

Lemma commitsLast_byField d : commitsLast (byField d).
Proof.
  unfold byField. repeat first [apply commitsLast_byGroup | commitsLast_step].
Qed.

Lemma commitsLast_discard {A} (m : M A) :
  commitsLast m → commitsLast (m ;; mret tt).
Proof.
  intros Hm s s' r. rewrite bind_run.
  destruct (m s) as [s1 [a|e]] eqn:E.
  - intros [= <- <-]. apply (Hm _ _ _ E).
  - intros [= <- <-]. apply (Hm _ _ _ E).
Qed.

Lemma commitsLast_stepModeSwitch b d : commitsLast (stepModeSwitch b d).
Proof.
  unfold stepModeSwitch.
  repeat (destruct (bool_decide _);
          [ apply commitsLast_discard;
            auto using commitsLast_byCard, commitsLast_bySet,
              commitsLast_byGroup, commitsLast_byField |]).
  by apply commitsLast_still, (within_throw sameTrace (λ _, True)).
Qed.

(** X7: a move commits at most once, and last.  A run of [handleMove]
    that throws has written nothing to the trace: no rebuild, no commit,
    no event.  A run that completes has written nothing, or the denied
    event alone, or the five rebuilds (input, field, group, set, card)
    followed by one commit whose patches are computed from the stores as
    the move leaves them. *)
Theorem commit_is_last d s s' r :
  handleMove d s = (s', r) →
  match r with
  | Thrown _ => trace s' = trace s
  | Ok _ =>
      trace s' = trace s
      ∨ trace s' = trace s ++ [Emitted (NavigationDenied invalid)]
      ∨ trace s' = trace s ++ batchTrace s'
  end.
Proof.
  unfold handleMove. rewrite bind_run, gets_run.
  destruct (navigationEnabled s); cbn [negb]; [|intros [= <- <-]; by left].
  rewrite bind_run, validateCurrent_run, bind_run, gets_run.
  destruct (negb _); [intros [= <- <-]; right; by left|].
  intros H.
  assert (commitsLast
            (if bool_decide (d = submit) then byCard next ;; mret tt
             else stepModeSwitch (behavior s) d)) as Hc.
  { destruct (bool_decide _);
      [apply commitsLast_discard, commitsLast_byCard
      |apply commitsLast_stepModeSwitch]. }
  specialize (Hc _ _ _ H). destruct r; [|done].
  destruct Hc; [by left | by right; right].
Qed.

Lemma commit_is_last_witness :
  ∃ s', handleMove next demoForm = (s', Ok tt)
        ∧ (trace s' = trace demoForm
           ∨ trace s'
             = trace demoForm ++ [Emitted (NavigationDenied invalid)]
           ∨ trace s' = trace demoForm ++ batchTrace s').
Proof.
  eexists. split; [vm_compute; reflexivity|].
  eapply (commit_is_last next demoForm _ (Ok tt)).
  vm_compute. reflexivity.
Defined.

(** ** No throw on a form whose stored indices are in range *)

Ltac structure_hyps :=
  first
    [ done
    | apply sameStructure_trans
    | intros ? ?; apply sameStructure_store, clear_idemp
    | intros ? ? ? ? ? ?; apply sameStructure_store, clear_markChildren
    | intros ? ? ? ? ?; eapply sameStructure_store, clear_setActive;
      eassumption
    | intros ? ? ? ? ?; eapply sameStructure_store, clear_setCurrent;
      eassumption ].

Lemma completes_bind {A B} P (m : M A) (k : A → M B) Q Q' :
  completes P m Q → (∀ a, completes (Q a) (k a) Q') →
  completes P (m ≫= k) Q'.
Proof.
  intros Hm Hk s Hs. destruct (Hm s Hs) as (s1 & a & E & Hq).
  destruct (Hk a s1 Hq) as (s2 & b & E2 & Hq').
  exists s2, b. by rewrite bind_run, E.
Qed.

Lemma completes_ret {A} (P : Form → Prop) (a : A) :
  completes P (mret a : M A) (λ _, P).
Proof. intros s Hs. by exists s, a. Qed.

Lemma completes_total {A} s0 (m : M A) (f : Form → Form) (a : A) :
  (∀ s, m s = (f s, Ok a)) → within sameStructure (λ _, True) m →
  completes (sameStructure s0) m (λ _, sameStructure s0).
Proof.
  intros Hrun Hw s Hs. exists (f s), a. split; [done|].
  destruct (Hw _ _ _ (Hrun s)) as [H _]. by eapply sameStructure_trans.
Qed.

Lemma locate_clear sel items :
  locate sel (clearActiveAndCurrent items) = locate sel items.
Proof.
  unfold clearActiveAndCurrent.
  destruct sel as [i|z]; cbn [locate]; [|by rewrite length_fmap].
  rewrite list_find_fmap. by destruct (list_find _ items) as [[]|].
Qed.

Lemma locate_structure sel t s0 s :
  sameStructure s0 s → locate sel (manager t s) = locate sel (manager t s0).
Proof.
  intros (_ & _ & H).
  by rewrite <- (locate_clear sel (manager t s)), H, locate_clear.
Qed.

Lemma locate_ById_found e items :
  e ∈ items → is_Some (locate (ById (itemId e)) items).
Proof.
  intros He. cbn [locate].
  destruct (list_find_elem_of (λ it, itemId it = itemId e) items e He
              eq_refl) as [[p x] ->]. by eexists.
Qed.

Lemma completes_setActive s0 t sel :
  is_Some (locate sel (manager t s0)) →
  completes (sameStructure s0) (mgr_setActive t sel)
    (λ _, sameStructure s0).
Proof.
  intros [p Hp] s Hs. unfold mgr_setActive, setActive.
  rewrite (locate_structure _ _ _ _ Hs), Hp. cbn.
  eexists _, tt. split; [done|].
  eapply sameStructure_trans; [exact Hs|].
  by apply sameStructure_store, clear_alter.
Qed.

Lemma completes_setCurrent s0 t sel :
  is_Some (locate sel (manager t s0)) →
  completes (sameStructure s0) (mgr_setCurrent t sel)
    (λ _, sameStructure s0).
Proof.
  intros [p Hp] s Hs. unfold mgr_setCurrent, setCurrent.
  rewrite (locate_structure _ _ _ _ Hs), Hp. cbn.
  eexists _, tt. split; [done|].
  eapply sameStructure_trans; [exact Hs|].
  by apply sameStructure_store, clear_alter.
Qed.

Lemma completes_clear s0 t :
  completes (sameStructure s0) (mgr_clearActiveAndCurrent t)
    (λ _, sameStructure s0).
Proof.
  eapply completes_total; [apply mgr_clearActiveAndCurrent_run|].
  intros s s' r [= <- <-]. split; [|done].
  apply sameStructure_store, clear_idemp.
Qed.

Lemma completes_syncAncestor s0 t storedIndex :
  (∀ z, storedIndex = Some z → (0 ≤ z)%Z →
        Z.to_nat z < length (manager t s0)) →
  completes (sameStructure s0) (syncAncestor t storedIndex)
    (λ _, sameStructure s0).
Proof.
  intros Hr. unfold syncAncestor.
  destruct storedIndex as [z|]; [|apply completes_ret].
  destruct (decide (0 ≤ z)%Z) as [Hz|Hz]; [|apply completes_ret].
  assert (is_Some (locate (ByIndex z) (manager t s0))) as Hl.
  { cbn [locate]. rewrite decide_True by done.
    rewrite decide_True by (by apply Hr). by eexists. }
  eapply completes_bind; [apply completes_clear|]. intros ?.
  eapply completes_bind; [by apply completes_setActive|]. intros ?.
  by apply completes_setCurrent.
Qed.

Lemma inRange_lookup s t e a z :
  inRange s → e ∈ manager t s →
  parentIndex a (parentHierarchy e) = Some z → (0 ≤ z)%Z →
  Z.to_nat z < length (manager a s).
Proof.
  intros Hr He Hp Hz. specialize (Hr t a). rewrite forallb_forall in Hr.
  specialize (Hr e (proj1 (list_elem_of_In _ _) He)).
  rewrite Hp, decide_True in Hr by done. by apply bool_decide_eq_true in Hr.
Qed.

Lemma completes_updateHierarchyData s0 t e :
  inRange s0 → e ∈ manager t s0 →
  completes (sameStructure s0) (updateHierarchyData e)
    (λ _, sameStructure s0).
Proof.
  intros Hr He. unfold updateHierarchyData.
  assert (∀ a, completes (sameStructure s0)
                 (syncAncestor a (parentIndex a (parentHierarchy e)))
                 (λ _, sameStructure s0)) as Hs.
  { intros a. apply completes_syncAncestor. intros z Hz Hz0.
    by eapply inRange_lookup. }
  eapply completes_bind;
    [destruct (bool_decide _); [apply (Hs EGroup)|apply completes_ret]|].
  intros ?. eapply completes_bind;
    [destruct (_ || _); [apply (Hs ESet)|apply completes_ret]|].
  intros ?. apply (Hs ECard).
Qed.

Lemma completes_clearHierarchyData s0 t :
  completes (sameStructure s0) (clearHierarchyData t)
    (λ _, sameStructure s0).
Proof.
  eapply completes_total; [apply clearHierarchyData_run|].
  apply (flags_clearHierarchyData sameStructure (λ _, True)); structure_hyps.
Qed.

Lemma completes_setChildrenActive s0 e :
  completes (sameStructure s0) (setChildrenActive e)
    (λ _, sameStructure s0).
Proof.
  eapply completes_total; [apply setChildrenActive_run|].
  apply (flags_setChildrenActive sameStructure (λ _, True)); structure_hyps.
Qed.

Lemma completes_batch {A} s0 (a : A) :
  completes (sameStructure s0) (batchStateUpdates ;; mret a)
    (λ _, sameStructure s0).
Proof.
  eapply completes_bind; [|intros ?; apply completes_ret].
  eapply completes_total; [apply batchStateUpdates_run|].
  apply (flags_batchStateUpdates sameStructure (λ _, True) (λ _, True));
    try done.
  all: first [ apply sameStructure_trans
             | intros e s _; apply sameStructure_effect ].
Qed.

Lemma targetPosition_lt t d s p :
  targetPosition t d s = Some p → p < length (manager t s).
Proof.
  unfold targetPosition, getPrevPosition, getNextPosition, currentPosition.
  destruct (list_find _ (manager t s)) as [[c x]|] eqn:E; cbn;
    [|by destruct (bool_decide _)].
  apply list_find_Some in E as (Hc%lookup_lt_Some & _).
  destruct (bool_decide _).
  - destruct c; [done|]. intros [= <-]. lia.
  - destruct (decide _); [|done]. by intros [= <-].
Qed.

Ltac completes_body s :=
  repeat first
    [ apply completes_batch
    | apply completes_clearHierarchyData
    | apply completes_setChildrenActive
    | eapply completes_updateHierarchyData; eassumption
    | apply completes_setActive; apply locate_ById_found; assumption
    | apply completes_setCurrent; apply locate_ById_found; assumption
    | eapply completes_bind; [|intros ?] ].

Ltac resolver_runs s Hr :=
  rewrite bind_run, targetPositionOf_run;
  lazymatch goal with
  | |- context [targetPosition ?lv ?d s] =>
      let p := fresh "p" in
      let Hp := fresh "Hp" in
      let e := fresh "e" in
      let He := fresh "He" in
      destruct (targetPosition lv d s) as [p|] eqn:Hp;
      [ destruct (lookup_lt_is_Some_2 _ _ (targetPosition_lt _ _ _ _ Hp))
          as [e He];
        pose proof (list_elem_of_lookup_2 _ _ _ He);
        rewrite bind_run, gets_run; unfold getByIndex;
        change (cardManager s) with (manager ECard s);
        change (setManager s) with (manager ESet s);
        change (groupManager s) with (manager EGroup s);
        change (fieldManager s) with (manager EField s);
        rewrite He;
        lazymatch goal with
        | |- ∃ s' r, ?m s = _ =>
            let Hc := fresh "Hc" in
            assert (completes (sameStructure s) m
                      (λ _, sameStructure s)) as Hc
              by completes_body s;
            destruct (Hc s (sameStructure_refl s)) as (? & ? & ? & _);
            eauto
        end
      | ]
  end.

Lemma resolver_completes level d s :
  inRange s → ∃ s' r, resolverOf level d s = (s', Ok r).
Proof.
  intros Hr.
  assert (∃ s' r, byCard d s = (s', Ok r)) as Hcard.
  { unfold byCard. resolver_runs s Hr. by eexists _, _. }
  assert (∃ s' r, bySet d s = (s', Ok r)) as Hset.
  { unfold bySet. resolver_runs s Hr. done. }
  assert (∃ s' r, byGroup d s = (s', Ok r)) as Hgroup.
  { unfold byGroup. resolver_runs s Hr. done. }
  destruct level; try done; [|by eexists _, _].
  cbn [resolverOf]. unfold byField. resolver_runs s Hr. done.
Qed.

(** X8: on a form whose behavior is one of the four step modes and whose
    stored ancestor indices designate items of the ancestor stores,
    [handleMove] never throws, whatever the direction, the position and
    the flags: every run completes.  The fatal errors of the resolvers
    need a broken hierarchy or an unknown behavior. *)
Theorem handleMove_completes d s :
  knownBehavior (behavior s) → inRange s →
  ∃ s', handleMove d s = (s', Ok tt).
Proof.
  intros Hb Hr. unfold handleMove. rewrite bind_run, gets_run.
  destruct (navigationEnabled s); cbn [negb]; [|by eexists].
  rewrite bind_run, validateCurrent_run, bind_run, gets_run.
  destruct (negb _); [by eexists|].
  assert (∀ level, ∃ s',
            (resolverOf level d ;; mret tt) s = (s', Ok tt)) as Hres.
  { intros level. destruct (resolver_completes level d s Hr) as (s' & r & E).
    exists s'. by rewrite bind_run, E. }
  destruct (bool_decide (d = submit)).
  - destruct (resolver_completes ECard next s Hr) as (s' & r & E).
    cbn [resolverOf] in E. exists s'. by rewrite bind_run, E.
  - unfold stepModeSwitch.
    destruct Hb as [-> | [-> | [-> | ->]]]; eval_decide; cbv iota.
    + apply (Hres EField).
    + apply (Hres EGroup).
    + apply (Hres ESet).
    + apply (Hres ECard).
Qed.

Lemma demoForm_inRange : inRange demoForm.
Proof. by intros [] []. Qed.

Lemma handleMove_completes_witness :
  ∃ s', handleMove next (withBehavior "byField" demoForm) = (s', Ok tt).
Proof.
  apply (handleMove_completes next (withBehavior "byField" demoForm)).
  - by left.
  - apply demoForm_inRange.
Defined.


(** ** ButtonManager: the rebuilt buttons *)

Lemma every_valid_allValid s :
  forallb isValid
    (getByFilter (λ input, active input && isIncluded input)
       (inputManager s)) = true
  ↔ allValid s.
Proof.
  split.
  - intros E i Hi Ha Hinc. rewrite forallb_forall in E. apply E.
    apply filter_In. split; [by apply list_elem_of_In|]. by rewrite Ha, Hinc.
  - intros H. apply forallb_forall. intros i [Hi Hf]%filter_In.
    apply andb_prop in Hf as [Ha Hinc].
    apply H; [by apply list_elem_of_In | done | done].
Qed.

Lemma every_valid_someInvalid s :
  forallb isValid
    (getByFilter (λ input, active input && isIncluded input)
       (inputManager s)) = false
  ↔ someInvalid s.
Proof.
  split.
  - intros E. destruct (validity_cases s) as [H|H]; [done|].
    apply every_valid_allValid in H. congruence.
  - intros H. by apply forallb_filter_false.
Qed.

Lemma determineEnabled_true type activeAndVisible s :
  determineEnabled type activeAndVisible s = true
  ↔ activeAndVisible = true ∧ (type = prev ∨ allValid s).
Proof.
  unfold determineEnabled. destruct activeAndVisible; cbn [negb].
  - destruct type.
    + split; [by intros _; split; [|left] | done].
    + rewrite every_valid_allValid.
      split; [by intros H; split; [|right] | by intros [_ [?|?]]].
    + rewrite every_valid_allValid.
      split; [by intros H; split; [|right] | by intros [_ [?|?]]].
  - split; [done | by intros [? _]].
Qed.

Lemma buildItemData_enabled findParent item s :
  button_disabled (buildItemData findParent item s) = false
  ↔ button_active (buildItemData findParent item s) = true
    ∧ (button_type item = prev ∨ allValid s).
Proof.
  cbn [buildItemData button_disabled button_active].
  rewrite negb_false_iff, determineEnabled_true, andb_true_r. done.
Qed.

(** X9: what [buildItemData] builds: the identity of the item is kept and it
    is always visible; it is enabled exactly when it is active and either
    is a prev button or every active and included input is valid; it is
    active exactly when the parent found for its element, the set before
    the card, is active or there is none; the flags the item had before
    are not read, so building twice builds the same. *)
Theorem buildItemData_rule findParent item s :
  let built := buildItemData findParent item s in
  (button_id built = button_id item
   ∧ button_index built = button_index item
   ∧ button_type built = button_type item)
  ∧ button_visible built = true
  ∧ (button_disabled built = false
     ↔ button_active built = true
       ∧ (button_type item = prev ∨ allValid s))
  ∧ (button_active built = true
     ↔ ∀ parent,
         match findParent (button_index item) ESet (setManager s) with
         | Some parentSet => Some parentSet
         | None => findParent (button_index item) ECard (cardManager s)
         end = Some parent → active parent = true)
  ∧ buildItemData findParent built s = built.
Proof.
  intros built. subst built.
  split; [done|]. split; [done|].
  split; [apply buildItemData_enabled|].
  split; [|done].
  cbn [buildItemData button_active]. unfold determineActive, findParentItem.
  destruct (findParent _ ESet _) as [parentSet|].
  - split; [by intros H parent [= <-] | by intros H; apply H].
  - destruct (findParent _ ECard _) as [parentCard|].
    + split; [by intros H parent [= <-] | by intros H; apply H].
    + split; [by intros _ parent | done].
Qed.

(** X10: the button manager and the navigation manager hold the same gate: a
    next or submit button built as active is disabled exactly when
    [handleMove] of its type is denied. *)
Theorem button_gate_agrees findParent item s :
  navigationEnabled s = true →
  button_active (buildItemData findParent item s) = true →
  button_type item ≠ prev →
  (button_disabled (buildItemData findParent item s) = true
   ↔ handleMove (button_type item) s = (denied s, Ok tt)).
Proof.
  intros Hen Hact Hty.
  rewrite handleMove_denied_when.
  rewrite <- every_valid_someInvalid.
  cbn [buildItemData button_disabled button_active] in *.
  rewrite Hact. unfold determineEnabled. cbn [andb negb].
  destruct (button_type item); [done| |].
  - rewrite negb_true_iff. split; [by intros -> | by intros (_ & _ & ->)].
  - rewrite negb_true_iff. split; [by intros -> | by intros (_ & _ & ->)].
Qed.

Lemma button_gate_agrees_witness :
  button_disabled
    (buildItemData demoParent (mkButton "next-button-0" 0 next false false
                                 false) demoInvalid) = true
  ∧ handleMove next demoInvalid = (denied demoInvalid, Ok tt).
Proof.
  assert (button_disabled
            (buildItemData demoParent
               (mkButton "next-button-0" 0 next false false false)
               demoInvalid) = true) as H; [reflexivity|].
  split; [done|].
  by apply (button_gate_agrees demoParent
              (mkButton "next-button-0" 0 next false false false)
              demoInvalid).
Defined.

Lemma existsb_reachable_rebuilt findParent t buttons s :
  existsb (reachable t) (rebuilt findParent buttons s)
  = existsb (λ item, bool_decide (button_type item = t)
                     && determineActive findParent (button_index item) s)
      buttons.
Proof.
  unfold rebuilt. induction buttons as [|b l IH]; [done|].
  cbn [fmap list_fmap existsb] in *. rewrite IH. f_equal.
  unfold reachable. cbn. rewrite andb_true_r. apply andb_comm.
Qed.

(** X11: on the buttons that [calculateStates] builds, the answer of
    [determineNextOrSubmit] is decided by the types of the buttons and
    the activity of their parents alone: a disabled button counts like an
    enabled one, and the validity of the inputs plays no part. *)
Theorem rebuilt_answer findParent buttons s :
  determineNextOrSubmit (rebuilt findParent buttons s)
  = (if existsb (λ item, bool_decide (button_type item = next)
                         && determineActive findParent (button_index item) s)
          buttons then next
     else if existsb (λ item, bool_decide (button_type item = submit)
                              && determineActive findParent
                                   (button_index item) s)
               buttons then submit
     else next)
  ∧ ∀ inputs,
      determineNextOrSubmit
        (rebuilt findParent buttons (withManager EInput inputs s))
      = determineNextOrSubmit (rebuilt findParent buttons s).
Proof.
  split.
  - by rewrite determineNextOrSubmit_reachable, !existsb_reachable_rebuilt.
  - intros inputs.
    rewrite !determineNextOrSubmit_reachable, !existsb_reachable_rebuilt.
    done.
Qed.


Lemma getSubmit_existsb buttons :
  match getSubmit buttons with Some _ => true | None => false end
  = existsb (λ item, button_active item
                     && bool_decide (button_type item = submit)) buttons.
Proof.
  unfold getSubmit. induction buttons as [|b l IH]; [done|]. cbn.
  by destruct (button_active b && bool_decide (button_type b = submit)).
Qed.

Lemma getSubmit_Some buttons b :
  getSubmit buttons = Some b →
  b ∈ buttons ∧ button_active b = true ∧ button_type b = submit.
Proof.
  intros [Hin H]%find_some. apply andb_prop in H as [Ha Ht].
  apply bool_decide_eq_true in Ht. by split; [apply list_elem_of_In|].
Qed.

Lemma reachable_getSubmit buttons :
  existsb (reachable submit) buttons = true →
  ∃ b, getSubmit buttons = Some b.
Proof.
  intros (b & Hin & Hb)%existsb_exists.
  destruct (getSubmit buttons) as [b'|] eqn:E; [by exists b'|].
  unfold getSubmit in E. eapply find_none in E; [|done].
  unfold reachable in Hb. cbn in E.
  destruct (button_active b), (button_visible b),
    (bool_decide (button_type b = submit)); done.
Qed.

(** X12: when [determineNextOrSubmit] answers submit, [getSubmit] finds a
    button: an active submit button of the store.  No active and visible
    next button is in the store then.  The button found need not be
    visible; the one that made the answer submit is. *)
Theorem submit_answer_has_button buttons :
  determineNextOrSubmit buttons = submit →
  (∃ b, getSubmit buttons = Some b ∧ b ∈ buttons
        ∧ button_active b = true ∧ button_type b = submit)
  ∧ (∀ b, b ∈ buttons → reachable next b = false)
  ∧ ∃ b, b ∈ buttons ∧ reachable submit b = true.
Proof.
  rewrite determineNextOrSubmit_reachable.
  destruct (existsb (reachable next) buttons) eqn:En; [done|].
  destruct (existsb (reachable submit) buttons) eqn:Es; [|done].
  intros _. split; [|split].
  - destruct (reachable_getSubmit _ Es) as [b E].
    exists b. split; [done|]. by apply getSubmit_Some.
  - intros b Hin. destruct (reachable next b) eqn:Hb; [|done].
    assert (existsb (reachable next) buttons = true); [|congruence].
    apply existsb_exists. exists b. by split; [apply list_elem_of_In|].
  - apply existsb_exists in Es as (b & Hin & Hb).
    exists b. by split; [apply list_elem_of_In|].
Qed.

Lemma submit_answer_has_button_witness :
  determineNextOrSubmit (buttonStore submitOnlyForm) = submit
  ∧ ∃ b, getSubmit (buttonStore submitOnlyForm) = Some b
         ∧ button_type b = submit.
Proof.
  split; [reflexivity|].
  destruct (submit_answer_has_button (buttonStore submitOnlyForm)
              eq_refl) as [(b & E & _ & _ & Ht) _].
  by exists b.
Defined.

(** ** ButtonManager: visibility by position *)





(** ** ButtonManager: lazy binding *)

Lemma tracked_unbound : tracked unbound ∧ boundOnce unbound.
Proof.
  split; [|apply NoDup_nil_2].
  split; [done|]. split; [apply NoDup_nil_2|]. by intros l H%elem_of_nil.
Qed.

Lemma bindButton_tracked buttonOf b item :
  tracked b → tracked (bindButton buttonOf b item).
Proof.
  intros (Hreg & Hnd & Hlt). unfold bindButton.
  destruct (existsb _ _); [done|].
  split; [|split]; cbn.
  - unfold addEventListener. by rewrite fmap_app, Hreg.
  - rewrite fmap_app. apply NoDup_app. split; [done|]. split.
    + intros h (l & -> & Hl)%list_elem_of_fmap [Hh|[]%elem_of_nil]%elem_of_cons.
      cbn in Hh. apply Hlt in Hl. lia.
    + apply NoDup_singleton.
  - intros l [Hl| ->%list_elem_of_singleton]%elem_of_app.
    + apply Hlt in Hl. lia.
    + cbn. lia.
Qed.

Lemma bindButton_boundOnce buttonOf b item :
  boundOnce b → boundOnce (bindButton buttonOf b item).
Proof.
  unfold boundOnce, bindButton. intros Hnd.
  destruct (existsb _ _) eqn:E; [done|]. cbn.
  rewrite fmap_app. apply NoDup_app. split; [done|]. split.
  - intros n (l & -> & Hl)%list_elem_of_fmap [Hn|[]%elem_of_nil]%elem_of_cons.
    cbn in Hn. assert (existsb
      (λ listener, bool_decide (listener_button listener
                                = buttonOf (button_index item)))
      (activeListeners b) = true); [|congruence].
    apply existsb_exists. exists l. split; [by apply list_elem_of_In|].
    by apply bool_decide_eq_true.
  - apply NoDup_singleton.
Qed.

Lemma fold_bindButton_keeps (P : Bindings → Prop) buttonOf items b :
  (∀ b item, P b → P (bindButton buttonOf b item)) →
  P b → P (fold_left (bindButton buttonOf) items b).
Proof.
  intros Hstep. revert b.
  induction items as [|item items IH]; [done|]. intros b Hb. cbn.
  apply IH, Hstep, Hb.
Qed.

Lemma filter_twice {A} (p q : A → bool) (l : list A) :
  List.filter p (List.filter q l) = List.filter (λ x, q x && p x) l.
Proof.
  induction l as [|x l IH]; [done|]. cbn.
  destruct (q x); cbn; [|done]. by rewrite IH.
Qed.

Lemma fold_remove (rem : Listener → bool) listeners page :
  fold_left
    (λ page listener,
       if rem listener
       then removeEventListener (listener_button listener)
              (listener_handler listener) page
       else page) listeners page
  = List.filter
      (λ r, negb (existsb (λ listener,
                             rem listener
                             && bool_decide (r = registration listener))
                    listeners)) page.
Proof.
  revert page. induction listeners as [|l ls IH]; intros page.
  - cbn. induction page as [|r page IHp]; [done|]. cbn. by rewrite <- IHp.
  - cbn [fold_left]. rewrite IH. destruct (rem l) eqn:E.
    + unfold removeEventListener. rewrite filter_twice.
      apply filter_ext. intros r. cbn [existsb]. rewrite E. cbn [andb].
      fold (registration l). by rewrite negb_orb.
    + apply filter_ext. intros r. cbn. by rewrite E.
Qed.

Lemma registration_inj listeners l l' :
  NoDup (listener_handler <$> listeners) →
  l ∈ listeners → l' ∈ listeners →
  registration l = registration l' → l = l'.
Proof.
  intros Hnd Hl Hl' [= _ Hh].
  apply list_elem_of_lookup in Hl as [i Hi].
  apply list_elem_of_lookup in Hl' as [j Hj].
  assert (i = j) as ->; [|congruence].
  eapply NoDup_lookup; [done| |].
  - by rewrite list_lookup_fmap, Hi.
  - by rewrite list_lookup_fmap, Hj, Hh.
Qed.

Lemma removed_tracked (rem : Listener → bool) listeners :
  NoDup (listener_handler <$> listeners) →
  List.filter
    (λ r, negb (existsb (λ listener,
                           rem listener
                           && bool_decide (r = registration listener))
                  listeners)) (registration <$> listeners)
  = registration <$> List.filter (λ listener, negb (rem listener)) listeners.
Proof.
  intros Hnd.
  change (registration <$> listeners) with (map registration listeners).
  rewrite filter_map_swap. 
  change (map registration ?l) with (registration <$> l). f_equal.
  apply filter_ext_in. intros l Hl%list_elem_of_In. f_equal.
  destruct (rem l) eqn:E.
  - apply existsb_exists. exists l. split; [by apply list_elem_of_In|].
    rewrite E. by apply bool_decide_eq_true.
  - destruct (existsb _ _) eqn:Ex; [|done].
    apply existsb_exists in Ex as (l' & Hl'%list_elem_of_In & H).
    apply andb_prop in H as [Hr Heq%bool_decide_eq_true].
    apply (registration_inj listeners) in Heq; [|done..]. congruence.
Qed.

Lemma filter_sub_tracked (keep : Listener → bool) b page :
  tracked b →
  page = registration <$> List.filter keep (activeListeners b) →
  tracked (mkBindings page (List.filter keep (activeListeners b))
             (closures b)).
Proof.
  intros (Hreg & Hnd & Hlt) ->. split; [done|]. cbn. split.
  - clear Hreg Hlt. induction (activeListeners b) as [|l ls IH]; [done|].
    cbn in *. apply NoDup_cons in Hnd as [Hl Hnd].
    destruct (keep l); [|by apply IH]. cbn. apply NoDup_cons.
    split; [|by apply IH].
    intros (l' & E & [Hl' _]%list_elem_of_In%filter_In)%list_elem_of_fmap.
    apply Hl. apply list_elem_of_fmap. exists l'.
    by split; [|apply list_elem_of_In].
  - intros l [Hl _]%list_elem_of_In%filter_In. by apply Hlt, list_elem_of_In.
Qed.

Lemma unbindInactiveButtons_tracked buttons b :
  tracked b → tracked (unbindInactiveButtons buttons b).
Proof.
  intros Hb. unfold unbindInactiveButtons.
  destruct (bool_decide _); [done|].
  apply filter_sub_tracked; [done|].
  rewrite fold_remove. destruct Hb as (-> & Hnd & _).
  by apply removed_tracked.
Qed.

Lemma bindActiveButtons_tracked buttonOf buttons b :
  tracked b → tracked (bindActiveButtons buttonOf buttons b).
Proof.
  intros Hb. unfold bindActiveButtons. destruct (bool_decide _); [done|].
  apply (fold_bindButton_keeps tracked); [|done].
  intros. by apply bindButton_tracked.
Qed.

Lemma unbindAllButtons_clears b :
  tracked b → unbindAllButtons b = mkBindings [] [] (closures b).
Proof.
  intros (Hreg & Hnd & _). unfold unbindAllButtons. f_equal.
  pose proof (fold_remove (λ _, true) (activeListeners b) (registered b))
    as H.
  cbn [andb] in H. rewrite H, Hreg.
  rewrite (removed_tracked (λ _, true)); [|done].
  assert (List.filter (λ _ : Listener, negb true) (activeListeners b) = [])
    as ->; [|done].
  clear. induction (activeListeners b) as [|l ls IH]; [done | apply IH].
Qed.

(** X14: every click listener on the page is one that [activeListeners]
    records: binding and unbinding keep the two in step, so that
    [unbindAllButtons] leaves no listener behind. *)
Theorem listeners_stay_tracked buttonOf buttons b :
  tracked b →
  tracked (bindActiveButtons buttonOf buttons b)
  ∧ tracked (unbindInactiveButtons buttons b)
  ∧ tracked (handleActiveButtons buttonOf buttons b)
  ∧ registered (unbindAllButtons (handleActiveButtons buttonOf buttons b))
    = []
  ∧ activeListeners
      (unbindAllButtons (handleActiveButtons buttonOf buttons b)) = [].
Proof.
  intros Hb.
  assert (tracked (handleActiveButtons buttonOf buttons b)) as Hh.
  { by apply bindActiveButtons_tracked, unbindInactiveButtons_tracked. }
  split; [by apply bindActiveButtons_tracked|].
  split; [by apply unbindInactiveButtons_tracked|].
  split; [done|].
  by rewrite (unbindAllButtons_clears _ Hh).
Qed.

Lemma listeners_stay_tracked_witness :
  tracked unbound
  ∧ registered
      (unbindAllButtons
         (handleActiveButtons demoButtonOf (buttonStore demoForm) unbound))
    = [].
Proof.
  split; [apply tracked_unbound|].
  apply (listeners_stay_tracked demoButtonOf (buttonStore demoForm) unbound).
  apply tracked_unbound.
Defined.

Lemma fold_bindButton_among (P : Bindings → Prop) buttonOf items b :
  (∀ b item, item ∈ items → P b → P (bindButton buttonOf b item)) →
  P b → P (fold_left (bindButton buttonOf) items b).
Proof.
  revert b. induction items as [|item items IH]; [done|].
  intros b Hstep Hb. cbn. apply IH.
  - intros b' item' Hin. apply Hstep. by right.
  - apply Hstep; [by left | done].
Qed.

Lemma bindButton_bound buttonOf b item :
  existsb (λ listener,
             bool_decide (listener_button listener
                          = buttonOf (button_index item)))
    (activeListeners (bindButton buttonOf b item)) = true.
Proof.
  unfold bindButton. destruct (existsb _ (activeListeners b)) eqn:E;
    [done|]. cbn.
  rewrite existsb_app. cbn. rewrite bool_decide_eq_true_2; [|done].
  by rewrite orb_true_r.
Qed.

Lemma bindButton_keeps_bound buttonOf b item button :
  existsb (λ listener, bool_decide (listener_button listener = button))
    (activeListeners b) = true →
  existsb (λ listener, bool_decide (listener_button listener = button))
    (activeListeners (bindButton buttonOf b item)) = true.
Proof.
  intros H. unfold bindButton.
  destruct (existsb
              (λ listener,
                 bool_decide (listener_button listener
                              = buttonOf (button_index item)))
              (activeListeners b)); [done|].
  cbn. by rewrite existsb_app, H.
Qed.

Lemma fold_bindButton_bound buttonOf items b item :
  item ∈ items →
  existsb (λ listener,
             bool_decide (listener_button listener
                          = buttonOf (button_index item)))
    (activeListeners (fold_left (bindButton buttonOf) items b)) = true.
Proof.
  revert b. induction items as [|x items IH]; [by intros b H%elem_of_nil|].
  intros b [->|Hin]%elem_of_cons; cbn; [|by apply IH].
  apply (fold_bindButton_keeps
           (λ b, existsb _ (activeListeners b) = true)).
  - intros b' item' H. by apply bindButton_keeps_bound.
  - apply bindButton_bound.
Qed.

Lemma shouldRemove_false activeItems listener :
  shouldRemove activeItems listener = false →
  ∃ item, item ∈ activeItems
          ∧ button_index item = listener_index listener.
Proof.
  unfold shouldRemove. destruct (List.find _ _) as [item|] eqn:E; [|done].
  intros _. apply find_some in E as [Hin Hi%bool_decide_eq_true].
  exists item. by split; [apply list_elem_of_In|].
Qed.

(** X15: after [handleActiveButtons] no button has two listeners if none had
    before.  When no button is active and visible nothing is unbound and
    nothing is bound: the listeners stay as they were.  Otherwise the
    button of every active and visible item has a listener, and every
    listener carries the index of an active and visible item. *)
Theorem handleActiveButtons_binds buttonOf buttons b :
  let b' := handleActiveButtons buttonOf buttons b in
  let activeItems := button_getActive buttons in
  (boundOnce b → boundOnce b')
  ∧ (activeItems = [] → b' = b)
  ∧ (activeItems ≠ [] →
     (∀ item, item ∈ activeItems →
        ∃ listener, listener ∈ activeListeners b'
                    ∧ listener_button listener
                      = buttonOf (button_index item))
     ∧ (∀ listener, listener ∈ activeListeners b' →
          ∃ item, item ∈ activeItems
                  ∧ button_index item = listener_index listener)).
Proof.
  intros b' activeItems. subst b'.
  unfold handleActiveButtons, bindActiveButtons, unbindInactiveButtons.
  fold activeItems.
  destruct activeItems as [|first rest] eqn:E.
  { cbn. split; [done|]. split; [done|]. by intros []. }
  rewrite <- E. rewrite bool_decide_eq_false_2; [|by rewrite E].
  split; [|split].
  - intros Hb. apply (fold_bindButton_keeps boundOnce).
    + intros. by apply bindButton_boundOnce.
    + unfold boundOnce in *. cbn.
      change (listener_button <$> ?l) with (map listener_button l) in *.
      clear -Hb. induction (activeListeners b) as [|l ls IH]; [done|].
      cbn in *. apply NoDup_cons in Hb as [Hl Hnd].
      destruct (negb _); [|by apply IH]. cbn. apply NoDup_cons.
      split; [|by apply IH].
      intros (l' & El & [Hl' _]%list_elem_of_In%filter_In)%list_elem_of_fmap.
      apply Hl. apply list_elem_of_fmap. exists l'.
      by split; [|apply list_elem_of_In].
  - by rewrite E.
  - intros _. split.
    + intros item Hin.
      pose proof (fold_bindButton_bound buttonOf activeItems
                    (mkBindings
                       (fold_left
                          (λ page listener,
                             if shouldRemove activeItems listener
                             then removeEventListener
                                    (listener_button listener)
                                    (listener_handler listener) page
                             else page)
                          (activeListeners b) (registered b))
                       (List.filter
                          (λ listener,
                             negb (shouldRemove activeItems listener))
                          (activeListeners b))
                       (closures b)) item Hin) as H.
      apply existsb_exists in H as (l & Hl & Hb%bool_decide_eq_true).
      exists l. by split; [apply list_elem_of_In|].
    + apply (fold_bindButton_among
               (λ b, ∀ listener, listener ∈ activeListeners b →
                  ∃ item, item ∈ activeItems
                          ∧ button_index item = listener_index listener)).
      * intros b0 item Hin H l. unfold bindButton.
        destruct (existsb _ _); [by apply H|]. cbn.
        intros [Hl| ->%list_elem_of_singleton]%elem_of_app; [by apply H|].
        by exists item.
      * cbn. intros l [_ Hl]%list_elem_of_In%filter_In.
        apply shouldRemove_false. by apply negb_true_iff.
Qed.

Lemma handleActiveButtons_binds_witness :
  button_getActive (buttonStore demoForm) ≠ []
  ∧ ∀ item, item ∈ button_getActive (buttonStore demoForm) →
      ∃ listener,
        listener ∈ activeListeners
                     (handleActiveButtons demoButtonOf (buttonStore demoForm)
                        unbound)
        ∧ listener_button listener = demoButtonOf (button_index item).
Proof.
  assert (button_getActive (buttonStore demoForm) ≠ []) as H; [done|].
  split; [done|].
  apply (handleActiveButtons_binds demoButtonOf (buttonStore demoForm)
           unbound), H.
Defined.
